(** * Byte-range lock service of the SMB server (smb_lock_svc.c)

    A shallow embedding of the range-lock rules of
    [usr/src/uts/common/fs/smbsrv/smb_lock_svc.c] and the properties of
    its lock, unlock and access-check entry points.

    Conventions of the embedding:
    - [uint64_t] offsets and lengths are [Z] values in [0, 2^64); the
      sums the C code computes are reduced modulo [2^64];
    - the node's [n_lock_list] is a [list smb_lock] in list order; a
      pointer to a member of the list is the member's position;
    - [smb_lock_wait] sleeps on a condition variable while other threads
      run; what the thread finds when it wakes up is supplied by a list
      of [wait_event]s (one per sleep);
    - the reader/writer lock of the list, the condition variables, the
      [l_conflict_list] reference tracking and the mutexes carry no data
      read by the rules and are not represented, but for [sr_mutex] in
      [smb_lock_wait], whose releases are counted. *)

From Stdlib Require Import ZArith List Bool Lia Permutation.
Import ListNotations.
Local Open Scope Z_scope.

(** ** Machine integers *)

Definition UINT64_MAX : Z := 2 ^ 64 - 1.

Definition is_uint64 (x : Z) : Prop := 0 <= x <= UINT64_MAX.

(** Addition of two [uint64_t] values. *)
Definition add64 (a b : Z) : Z := (a + b) mod 2 ^ 64.

(** ** Constants and enumerations of the headers *)

(** Modelled from the spec: the NT status codes of the header
    [smbsrv/ntstatus.h], which is not part of the sources; the five codes
    the lock service produces, as listed in the external interface. *)
Inductive ntstatus : Set :=
| NT_STATUS_SUCCESS
| NT_STATUS_LOCK_NOT_GRANTED
| NT_STATUS_FILE_LOCK_CONFLICT
| NT_STATUS_RANGE_NOT_LOCKED
| NT_STATUS_CANCELLED.

Definition ntstatus_eqb (a b : ntstatus) : bool :=
  match a, b with
  | NT_STATUS_SUCCESS, NT_STATUS_SUCCESS
  | NT_STATUS_LOCK_NOT_GRANTED, NT_STATUS_LOCK_NOT_GRANTED
  | NT_STATUS_FILE_LOCK_CONFLICT, NT_STATUS_FILE_LOCK_CONFLICT
  | NT_STATUS_RANGE_NOT_LOCKED, NT_STATUS_RANGE_NOT_LOCKED
  | NT_STATUS_CANCELLED, NT_STATUS_CANCELLED => true
  | _, _ => false
  end.

(** Modelled from the spec: the lock types [SMB_LOCK_TYPE_READWRITE]
    (Exclusive) and [SMB_LOCK_TYPE_READONLY] (Shared) of the header
    [smbsrv/smb_ktypes.h], which is not part of the sources.
    [smb_lock_create] asserts that a record has one of these two. *)
Inductive lock_type : Set :=
| SMB_LOCK_TYPE_READWRITE
| SMB_LOCK_TYPE_READONLY.

Definition lock_type_eqb (a b : lock_type) : bool :=
  match a, b with
  | SMB_LOCK_TYPE_READWRITE, SMB_LOCK_TYPE_READWRITE
  | SMB_LOCK_TYPE_READONLY, SMB_LOCK_TYPE_READONLY => true
  | _, _ => false
  end.

(** Modelled from the spec: the states of a request context that
    [smb_lock_wait] distinguishes (Active, WaitingOnLock, Canceled); the
    header declaring them is not part of the sources. *)
Inductive req_state : Set :=
| SMB_REQ_STATE_ACTIVE
| SMB_REQ_STATE_WAITING_LOCK
| SMB_REQ_STATE_CANCELED.

(** Modelled from the spec: the flag bits and access masks of the headers,
    which are not part of the sources; each is a single nonzero bit, and
    the two access masks are distinct. *)
Definition SMB_LOCK_FLAG_INDEFINITE : Z := 0x0004.
Definition SMB_OFLAGS_LLF_POS_VALID : Z := 0x0008.
Definition FILE_READ_DATA : Z := 0x0001.
Definition FILE_WRITE_DATA : Z := 0x0002.

Definition RANGE_NO_OVERLAP : bool := false.
Definition RANGE_OVERLAP : bool := true.

(** ** Data structures *)

(** [smb_lock_t]: the fields the rules read.  [l_file] is the address of
    the owning open file; [l_blocked_by] is the position of the conflicting
    member the record waits for. *)
Record smb_lock : Set := mk_lock {
  l_file : Z;
  l_session_kid : Z;
  l_pid : Z;
  l_uid : Z;
  l_type : lock_type;
  l_start : Z;
  l_length : Z;
  l_flags : Z;
  l_blocked_by : option nat
}.

(** [smb_ofile_t]: whether the file is still open (what
    [smb_ofile_is_open] reports), its flags and the start offset of the
    last lock request that failed on it. *)
Record smb_ofile : Set := mk_ofile {
  f_open : bool;
  f_flags : Z;
  f_llf_pos : Z
}.

(** [smb_node_t]: the list of active locks. *)
Record smb_node : Set := mk_node {
  n_lock_list : list smb_lock
}.

(** [smb_request_t]: the identity of the requester ([fid_ofile] is the
    address of its open file, [s_kid] is [session->s_kid]) and the state
    of the request. *)
Record smb_request : Set := mk_request {
  fid_ofile : Z;
  s_kid : Z;
  smb_pid : Z;
  smb_uid : Z;
  sr_state : req_state;
  sr_awaiting : option nat
}.

(** The objects shared with other threads: the file of the request and
    the node of that file ([file->f_node]). *)
Record world : Set := mk_world {
  w_node : smb_node;
  w_file : smb_ofile
}.

(** What a thread finds when its sleep in [smb_lock_wait] ends:
    whether [cv_timedwait] reported the deadline (-1), whether the
    request was cancelled meanwhile, and the shared objects as the other
    threads left them. *)
Record wait_event : Set := mk_event {
  ev_timedout : bool;
  ev_canceled : bool;
  ev_world : world
}.

(** Results of code that can sleep forever, trip [ASSERT(0)] or release
    a mutex it does not hold. *)
Inductive outcome (A : Type) : Type :=
| Returned (a : A)
| Blocked
| AssertFailed
| MutexNotHeld
| OutOfFuel.
Arguments Returned {A} a.
Arguments Blocked {A}.
Arguments AssertFailed {A}.
Arguments MutexNotHeld {A}.
Arguments OutOfFuel {A}.

(** [mutex_exit(&sr->sr_mutex)] followed by [k]: [held] tells whether the
    thread holds the mutex at that point. *)
Definition mutex_exit_sr {A : Type} (held : bool) (k : outcome A)
  : outcome A :=
  if held then k else MutexNotHeld.

(** ** List primitives *)

Definition smb_llist_insert_tail (l : list smb_lock) (x : smb_lock)
  : list smb_lock := l ++ [x].

(** Unlinks the member at position [i]. *)
Definition smb_llist_remove (l : list smb_lock) (i : nat) : list smb_lock :=
  firstn i l ++ skipn (S i) l.

(** Modelled from the spec: [smb_ofile_is_open], defined outside the
    sources, tells whether the target file handle is still open. *)
Definition smb_ofile_is_open (file : smb_ofile) : bool := f_open file.

(** Modelled from the spec: the macro [SMB_LOCK_INDEFINITE_WAIT] of the
    header tests the flag [smb_lock_create] sets for an indefinite
    timeout. *)
Definition SMB_LOCK_INDEFINITE_WAIT (lock : smb_lock) : bool :=
  negb (Z.land (l_flags lock) SMB_LOCK_FLAG_INDEFINITE =? 0).

(** ** smb_lock_range_overlap *)

Definition smb_lock_range_overlap (lock : smb_lock) (start length : Z)
  : bool :=
  if (length =? 0) || (l_length lock =? 0) then RANGE_NO_OVERLAP
  else if (if start <? l_start lock
           then add64 start length >? l_start lock
           else start <? add64 (l_start lock) (l_length lock))
  then RANGE_OVERLAP
  else if (if add64 start length >? add64 (l_start lock) (l_length lock)
           then start <? add64 (l_start lock) (l_length lock)
           else add64 start length >? l_start lock)
  then RANGE_OVERLAP
  else RANGE_NO_OVERLAP.

(** ** smb_lock_range_lckrules *)

(** The four comparisons of the owner of a member with the requester. *)
Definition lock_owner_is_request (lock : smb_lock) (sr : smb_request)
  : bool :=
  (l_file lock =? fid_ofile sr) &&
  (l_session_kid lock =? s_kid sr) &&
  (l_pid lock =? smb_pid sr) &&
  (l_uid lock =? smb_uid sr).

(** The [for] loop of [smb_lock_range_lckrules] from position [i] on:
    the status and [*clockp]. *)
Fixpoint lckrules_scan (sr : smb_request) (dlock : smb_lock)
    (locks : list smb_lock) (i : nat) : ntstatus * option nat :=
  match locks with
  | [] => (NT_STATUS_SUCCESS, None)
  | lock :: rest =>
      if negb (smb_lock_range_overlap lock (l_start dlock) (l_length dlock))
      then lckrules_scan sr dlock rest (S i)
      else if lock_type_eqb (l_type lock) SMB_LOCK_TYPE_READONLY &&
              lock_type_eqb (l_type dlock) SMB_LOCK_TYPE_READONLY
      then lckrules_scan sr dlock rest (S i)
      else if lock_type_eqb (l_type dlock) SMB_LOCK_TYPE_READONLY &&
              negb (lock_type_eqb (l_type lock) SMB_LOCK_TYPE_READONLY) &&
              lock_owner_is_request lock sr
      then lckrules_scan sr dlock rest (S i)
      else (NT_STATUS_LOCK_NOT_GRANTED, Some i)
  end.

Definition smb_lock_range_lckrules (sr : smb_request) (file : smb_ofile)
    (node : smb_node) (dlock : smb_lock) : ntstatus * option nat :=
  if negb (smb_ofile_is_open file) then (NT_STATUS_RANGE_NOT_LOCKED, None)
  else lckrules_scan sr dlock (n_lock_list node) 0%nat.

(** ** smb_lock_wait *)

Definition set_sr_state (sr : smb_request) (st : req_state)
    (aw : option nat) : smb_request :=
  mk_request (fid_ofile sr) (s_kid sr) (smb_pid sr) (smb_uid sr) st aw.

Definition set_blocked_by (lock : smb_lock) (b : option nat) : smb_lock :=
  mk_lock (l_file lock) (l_session_kid lock) (l_pid lock) (l_uid lock)
          (l_type lock) (l_start lock) (l_length lock) (l_flags lock) b.

(** What [smb_lock_wait] hands back: its status, the request, the pending
    lock, the shared objects and the wake-ups not yet consumed. *)
Record wait_exit : Set := mk_wait_exit {
  we_status : ntstatus;
  we_sr : smb_request;
  we_lock : smb_lock;
  we_world : world;
  we_rest : list wait_event
}.

(** [sr_mutex] is taken on entry and released by the [mutex_exit] that
    ends the function.  In the active state it is released before the
    sleep and taken again after it, so it is held at the end.  In the
    cancelled state the branch releases it itself before the [break], so
    the [mutex_exit] at the end finds it not held.  In any other state
    the code reaches [ASSERT(0)].  The entry assertion
    [ASSERT(sr->sr_awaiting == NULL)] is the caller's obligation and is
    not checked. *)
Definition smb_lock_wait (sr : smb_request) (b_lock : smb_lock)
    (c_lock : nat) (w : world) (events : list wait_event)
  : outcome wait_exit :=
  match sr_state sr with
  | SMB_REQ_STATE_ACTIVE =>
      let b_lock' := set_blocked_by b_lock (Some c_lock) in
      match events with
      | [] => Blocked
      | ev :: rest =>
          let status :=
            if SMB_LOCK_INDEFINITE_WAIT b_lock' then NT_STATUS_SUCCESS
            else if ev_timedout ev then NT_STATUS_CANCELLED
            else NT_STATUS_SUCCESS in
          mutex_exit_sr true
            (if ev_canceled ev
             then Returned (mk_wait_exit NT_STATUS_CANCELLED
                     (set_sr_state sr SMB_REQ_STATE_CANCELED None)
                     b_lock' (ev_world ev) rest)
             else Returned (mk_wait_exit status
                     (set_sr_state sr SMB_REQ_STATE_ACTIVE None)
                     b_lock' (ev_world ev) rest))
      end
  | SMB_REQ_STATE_CANCELED =>
      mutex_exit_sr false
        (Returned (mk_wait_exit NT_STATUS_CANCELLED sr b_lock w events))
  | SMB_REQ_STATE_WAITING_LOCK => AssertFailed
  end.

(** ** smb_lock_create *)

Definition smb_lock_create (sr : smb_request) (start length : Z)
    (locktype : lock_type) (timeout : Z) : smb_lock :=
  mk_lock (fid_ofile sr) (s_kid sr) (smb_pid sr) (smb_uid sr)
          locktype start length
          (if timeout =? 0xffffffff
           then Z.lor 0 SMB_LOCK_FLAG_INDEFINITE else 0)
          None.

(** ** smb_lock_range *)

(** The state at the exit of the [for (;;)] loop, with the number of
    calls of [smb_lock_range_lckrules] and of [smb_lock_wait] made. *)
Record loop_exit : Set := mk_loop_exit {
  le_result : ntstatus;
  le_sr : smb_request;
  le_lock : smb_lock;
  le_world : world;
  le_rest : list wait_event;
  le_evals : nat;
  le_waits : nat
}.

Fixpoint smb_lock_range_loop (fuel : nat) (sr : smb_request)
    (lock : smb_lock) (timeout : Z) (w : world) (events : list wait_event)
    (evals waits : nat) : outcome loop_exit :=
  match fuel with
  | O => OutOfFuel
  | S fuel' =>
      let (result, clock) :=
        smb_lock_range_lckrules sr (w_file w) (w_node w) lock in
      match result with
      | NT_STATUS_CANCELLED | NT_STATUS_SUCCESS
      | NT_STATUS_RANGE_NOT_LOCKED =>
          Returned (mk_loop_exit result sr lock w events (S evals) waits)
      | _ =>
          match clock with
          | None => AssertFailed
          | Some c =>
              if timeout =? 0
              then Returned
                     (mk_loop_exit result sr lock w events (S evals) waits)
              else
                match smb_lock_wait sr lock c w events with
                | Returned we =>
                    if negb (ntstatus_eqb (we_status we) NT_STATUS_SUCCESS)
                    then Returned
                           (mk_loop_exit (we_status we) (we_sr we)
                              (we_lock we) (we_world we) (we_rest we)
                              (S evals) (S waits))
                    else smb_lock_range_loop fuel' (we_sr we) (we_lock we)
                           timeout (we_world we) (we_rest we)
                           (S evals) (S waits)
                | Blocked => Blocked
                | AssertFailed => AssertFailed
                | MutexNotHeld => MutexNotHeld
                | OutOfFuel => OutOfFuel
                end
          end
      end
  end.

(** The status computed on the failure path (the block under
    [result != NT_STATUS_SUCCESS] up to the update of the marker). *)
Definition smb_lock_range_status (result : ntstatus) (timeout : Z)
    (lock : smb_lock) (file : smb_ofile) : ntstatus :=
  if ntstatus_eqb result NT_STATUS_LOCK_NOT_GRANTED then
    let r1 :=
      if negb (timeout =? 0) then NT_STATUS_FILE_LOCK_CONFLICT
      else result in
    let r2 :=
      if (l_start lock >=? 0xef000000) &&
         (Z.land (l_start lock) (Z.shiftl 1 63) =? 0)
      then NT_STATUS_FILE_LOCK_CONFLICT else r1 in
    if negb (Z.land (f_flags file) SMB_OFLAGS_LLF_POS_VALID =? 0) &&
       (l_start lock =? f_llf_pos file)
    then NT_STATUS_FILE_LOCK_CONFLICT else r2
  else result.

(** What a call of [smb_lock_range] leaves: the returned status, the
    status at the exit of the loop, the request, the shared objects as
    they were at the exit of the loop and as the call leaves them, the
    wake-ups not consumed, and the two call counters. *)
Record lock_result : Set := mk_lock_result {
  lr_status : ntstatus;
  lr_raw : ntstatus;
  lr_sr : smb_request;
  lr_exit : world;
  lr_world : world;
  lr_rest : list wait_event;
  lr_evals : nat;
  lr_waits : nat
}.

(** The code after the loop. *)
Definition smb_lock_range_finish (timeout : Z) (le : loop_exit)
  : lock_result :=
  let lock := set_blocked_by (le_lock le) None in
  let w := le_world le in
  let file := w_file w in
  if negb (ntstatus_eqb (le_result le) NT_STATUS_SUCCESS) then
    let result := smb_lock_range_status (le_result le) timeout lock file in
    let file' := mk_ofile (f_open file)
                   (Z.lor (f_flags file) SMB_OFLAGS_LLF_POS_VALID)
                   (l_start lock) in
    mk_lock_result result (le_result le) (le_sr le) w
      (mk_world (w_node w) file')
      (le_rest le) (le_evals le) (le_waits le)
  else
    mk_lock_result (le_result le) (le_result le) (le_sr le) w
      (mk_world
         (mk_node (smb_llist_insert_tail (n_lock_list (w_node w)) lock))
         file)
      (le_rest le) (le_evals le) (le_waits le).

(** [smb_lock_range] on the file and node of [w].  Every turn of the loop
    but the last consumes a wake-up, so [S (length events)] turns are
    enough. *)
Definition smb_lock_range (sr : smb_request) (start length timeout : Z)
    (locktype : lock_type) (w : world) (events : list wait_event)
  : outcome lock_result :=
  let lock := smb_lock_create sr start length locktype timeout in
  match smb_lock_range_loop (S (List.length events)) sr lock timeout w
          events 0 0 with
  | Returned le => Returned (smb_lock_range_finish timeout le)
  | Blocked => Blocked
  | AssertFailed => AssertFailed
  | MutexNotHeld => MutexNotHeld
  | OutOfFuel => OutOfFuel
  end.

(** ** smb_lock_range_ulckrules and smb_unlock_range *)

(** The [for] loop of [smb_lock_range_ulckrules] from position [i] on:
    the status and [*nodelock]. *)
Fixpoint ulckrules_scan (sr : smb_request) (start length : Z)
    (locks : list smb_lock) (i : nat) : ntstatus * option nat :=
  match locks with
  | [] => (NT_STATUS_RANGE_NOT_LOCKED, None)
  | lock :: rest =>
      if (start =? l_start lock) &&
         (length =? l_length lock) &&
         (l_file lock =? fid_ofile sr) &&
         (l_session_kid lock =? s_kid sr) &&
         (l_pid lock =? smb_pid sr) &&
         (l_uid lock =? smb_uid sr)
      then (NT_STATUS_SUCCESS, Some i)
      else ulckrules_scan sr start length rest (S i)
  end.

Definition smb_lock_range_ulckrules (sr : smb_request) (node : smb_node)
    (start length : Z) : ntstatus * option nat :=
  ulckrules_scan sr start length (n_lock_list node) 0%nat.

(** What a call of [smb_unlock_range] leaves: the status, the node and
    the record handed to [smb_lock_destroy]. *)
Record unlock_result : Set := mk_unlock_result {
  ur_status : ntstatus;
  ur_node : smb_node;
  ur_destroyed : option smb_lock
}.

Definition smb_unlock_range (sr : smb_request) (node : smb_node)
    (start length : Z) : unlock_result :=
  let (status, lock) := smb_lock_range_ulckrules sr node start length in
  if negb (ntstatus_eqb status NT_STATUS_SUCCESS)
  then mk_unlock_result status node None
  else
    match lock with
    | Some i =>
        mk_unlock_result status
          (mk_node (smb_llist_remove (n_lock_list node) i))
          (nth_error (n_lock_list node) i)
    | None => mk_unlock_result status node None
    end.

(** ** smb_lock_range_access *)

Fixpoint access_scan (sr : smb_request) (start length desired_access : Z)
    (locks : list smb_lock) : ntstatus :=
  match locks with
  | [] => NT_STATUS_SUCCESS
  | lock :: rest =>
      if negb (smb_lock_range_overlap lock start length)
      then access_scan sr start length desired_access rest
      else if lock_type_eqb (l_type lock) SMB_LOCK_TYPE_READONLY &&
              (desired_access =? FILE_READ_DATA)
      then access_scan sr start length desired_access rest
      else if lock_type_eqb (l_type lock) SMB_LOCK_TYPE_READWRITE &&
              (l_session_kid lock =? s_kid sr) &&
              (l_pid lock =? smb_pid sr)
      then access_scan sr start length desired_access rest
      else NT_STATUS_FILE_LOCK_CONFLICT
  end.

Definition smb_lock_range_access (sr : smb_request) (node : smb_node)
    (start length desired_access : Z) : ntstatus :=
  access_scan sr start length desired_access (n_lock_list node).

(** ** smb_node_destroy_lock_by_ofile *)

(** The first loop of [smb_node_destroy_lock_by_ofile]: every member whose
    [l_file] is [file] is unlinked from the node's list and inserted at
    the tail of [destroy_list]; the result is the list left on the node
    and the destroy list. *)
Fixpoint destroy_scan (file : Z) (locks destroy_list : list smb_lock)
  : list smb_lock * list smb_lock :=
  match locks with
  | [] => ([], destroy_list)
  | lock :: rest =>
      if l_file lock =? file
      then destroy_scan file rest (destroy_list ++ [lock])
      else
        let (left, destroy_list') := destroy_scan file rest destroy_list in
        (lock :: left, destroy_list')
  end.

(** What [smb_node_destroy_lock_by_ofile] leaves: the node, and the
    records its second loop hands to [smb_lock_destroy], in that order. *)
Record destroy_result : Set := mk_destroy_result {
  dr_node : smb_node;
  dr_destroyed : list smb_lock
}.

Definition smb_node_destroy_lock_by_ofile (node : smb_node) (file : Z)
  : destroy_result :=
  let (left, destroy_list) := destroy_scan file (n_lock_list node) [] in
  mk_destroy_result (mk_node left) destroy_list.

(** ** smb_unlock_range_raise_error *)

(** Modelled from the spec: the DOS error class and codes of the header
    [smbsrv/cifs.h], which is not part of the sources. *)
Inductive dos_errcls : Set := ERRDOS.
Inductive dos_errcode : Set := ERRlock | ERRnotlocked.

(** The error a request is aborted with: the arguments of the call of
    [smbsr_raise_error] or of [smbsr_raise_cifs_error], neither of which
    returns. *)
Inductive smb_error : Set :=
| smbsr_raise_error (errcls : dos_errcls) (errcode : dos_errcode)
| smbsr_raise_cifs_error (status : ntstatus) (errcls : dos_errcls)
    (errcode : dos_errcode).

Definition smb_unlock_range_raise_error (status : ntstatus)
  : outcome smb_error :=
  match status with
  | NT_STATUS_RANGE_NOT_LOCKED =>
      Returned (smbsr_raise_cifs_error NT_STATUS_RANGE_NOT_LOCKED
                  ERRDOS ERRnotlocked)
  | _ => AssertFailed
  end.

(** * Predicates of the specification *)

(** The half-open intervals [[a, a + alen)] and [[b, b + blen)] of
    offsets have a common point. *)
Definition ranges_intersect (a alen b blen : Z) : Prop :=
  exists x, (a <= x < a + alen) /\ (b <= x < b + blen).

(** A range whose end [start + length] is itself a [uint64_t]: the sum
    the code computes is the end of the range. *)
Definition range_no_wrap (start length : Z) : Prop :=
  0 <= start /\ 0 <= length /\ start + length <= UINT64_MAX.

(** Strict owner equality: open file, session, process and user. *)
Definition same_owner (lock : smb_lock) (sr : smb_request) : Prop :=
  l_file lock = fid_ofile sr /\
  l_session_kid lock = s_kid sr /\
  l_pid lock = smb_pid sr /\
  l_uid lock = smb_uid sr.

(** Loose owner equality: session and process only. *)
Definition same_session_pid (lock : smb_lock) (sr : smb_request) : Prop :=
  l_session_kid lock = s_kid sr /\ l_pid lock = smb_pid sr.

(** The members the grant-rule scan passes over for candidate [dlock]. *)
Definition grant_skips (sr : smb_request) (dlock member : smb_lock)
  : Prop :=
  smb_lock_range_overlap member (l_start dlock) (l_length dlock) = false \/
  (l_type member = SMB_LOCK_TYPE_READONLY /\
   l_type dlock = SMB_LOCK_TYPE_READONLY) \/
  (l_type dlock = SMB_LOCK_TYPE_READONLY /\
   l_type member = SMB_LOCK_TYPE_READWRITE /\
   same_owner member sr).

(** The members the access check passes over. *)
Definition access_skips (sr : smb_request) (start length desired_access : Z)
    (member : smb_lock) : Prop :=
  smb_lock_range_overlap member start length = false \/
  (l_type member = SMB_LOCK_TYPE_READONLY /\
   desired_access = FILE_READ_DATA) \/
  (l_type member = SMB_LOCK_TYPE_READWRITE /\
   same_session_pid member sr).

(** The record an unlock request names: same start, same length, same
    owner. *)
Definition unlock_matches (sr : smb_request) (start length : Z)
    (lock : smb_lock) : Prop :=
  l_start lock = start /\ l_length lock = length /\ same_owner lock sr.

(** The two statuses that report a conflict with an active lock. *)
Definition is_conflict_status (s : ntstatus) : Prop :=
  s = NT_STATUS_LOCK_NOT_GRANTED \/ s = NT_STATUS_FILE_LOCK_CONFLICT.

(** The three conditions under which a refused request is reported as
    a file lock conflict. *)
Definition escalates (timeout start : Z) (file : smb_ofile) : Prop :=
  timeout <> 0 \/
  (0xEF000000 <= start /\ Z.testbit start 63 = false) \/
  (Z.land (f_flags file) SMB_OFLAGS_LLF_POS_VALID <> 0 /\
   f_llf_pos file = start).

(** The shared objects after the wake-ups [used], starting from [w]:
    the sleeping thread changes none of them. *)
Definition world_after (w : world) (used : list wait_event) : world :=
  fold_left (fun _ ev => ev_world ev) used w.

(** [rest] is what is left of [events] once the wake-ups that brought the
    shared objects from [w] to [w'] are consumed. *)
Definition consumed (events rest : list wait_event) (w w' : world)
  : Prop :=
  exists used, events = used ++ rest /\ w' = world_after w used.

(** * Sample data *)

Definition owner1 : smb_request :=
  mk_request 100 7 11 21 SMB_REQ_STATE_ACTIVE None.
Definition owner2 : smb_request :=
  mk_request 200 8 12 22 SMB_REQ_STATE_ACTIVE None.

(** An active lock of [sr] on [[start, start + length)]. *)
Definition held (sr : smb_request) (ty : lock_type) (start length : Z)
  : smb_lock :=
  smb_lock_create sr start length ty 0.

Definition open_file : smb_ofile := mk_ofile true 0 0.
Definition closed_file : smb_ofile := mk_ofile false 0 0.

Definition world_of (locks : list smb_lock) (file : smb_ofile) : world :=
  mk_world (mk_node locks) file.

(** * Further predicates *)

(** The comparison [smb_lock_range_ulckrules] makes on each member. *)
Definition unlock_matchb (sr : smb_request) (start length : Z)
    (lock : smb_lock) : bool :=
  (start =? l_start lock) &&
  (length =? l_length lock) &&
  (l_file lock =? fid_ofile sr) &&
  (l_session_kid lock =? s_kid sr) &&
  (l_pid lock =? smb_pid sr) &&
  (l_uid lock =? smb_uid sr).

(** A request of the same requester in another state. *)
Definition same_requester (sr sr' : smb_request) : Prop :=
  fid_ofile sr' = fid_ofile sr /\ s_kid sr' = s_kid sr /\
  smb_pid sr' = smb_pid sr /\ smb_uid sr' = smb_uid sr.

(** * Properties of the overlap test *)

Lemma add64_no_wrap (start length : Z) :
  range_no_wrap start length -> add64 start length = start + length.
Proof.
  unfold range_no_wrap, add64, UINT64_MAX.
  intros (Hs & Hl & He).
  apply Z.mod_small. lia.
Qed.

(** The test as a comparison of the two ends, for ranges that do not
    wrap. *)
Lemma overlap_no_wrap (lock : smb_lock) (start length : Z) :
  range_no_wrap (l_start lock) (l_length lock) ->
  range_no_wrap start length ->
  smb_lock_range_overlap lock start length =
  negb (length =? 0) && negb (l_length lock =? 0) &&
  (start <? l_start lock + l_length lock) &&
  (l_start lock <? start + length).
Proof.
  intros Hl Hr.
  unfold smb_lock_range_overlap, RANGE_OVERLAP, RANGE_NO_OVERLAP.
  rewrite (add64_no_wrap _ _ Hl), (add64_no_wrap _ _ Hr).
  destruct Hl as (Hl1 & Hl2 & _), Hr as (Hr1 & Hr2 & _).
  destruct (Z.eqb_spec length 0); [reflexivity|].
  destruct (Z.eqb_spec (l_length lock) 0); [reflexivity|].
  cbn [orb negb andb].
  repeat match goal with
         | |- context [?a <? ?b] => destruct (Z.ltb_spec a b)
         | |- context [?a >? ?b] =>
             rewrite (Z.gtb_ltb a b); destruct (Z.ltb_spec b a)
         end; cbn; try reflexivity; lia.
Qed.

Lemma overlap_zero_length (lock : smb_lock) (start length : Z) :
  length = 0 \/ l_length lock = 0 ->
  smb_lock_range_overlap lock start length = false.
Proof.
  unfold smb_lock_range_overlap, RANGE_NO_OVERLAP.
  intros [-> | ->]; [reflexivity|].
  now rewrite orb_true_r.
Qed.

(** A zero-length range overlaps nothing; and for two ranges whose ends
    [start + length] do not exceed the largest 64-bit value, the test
    answers "overlap" exactly when the half-open intervals
    [[start, start + length)] have a common offset. *)
Theorem overlap_iff_intersect (lock : smb_lock) (start length : Z) :
  (length = 0 \/ l_length lock = 0 ->
   smb_lock_range_overlap lock start length = false) /\
  (range_no_wrap (l_start lock) (l_length lock) ->
   range_no_wrap start length ->
   (smb_lock_range_overlap lock start length = true <->
    ranges_intersect start length (l_start lock) (l_length lock))).
Proof.
  split; [apply overlap_zero_length|].
  intros Hl Hr. rewrite (overlap_no_wrap _ _ _ Hl Hr).
  destruct Hl as (Hl1 & Hl2 & _), Hr as (Hr1 & Hr2 & _).
  unfold ranges_intersect.
  rewrite !andb_true_iff, !negb_true_iff, !Z.eqb_neq, !Z.ltb_lt.
  split.
  - intros (((Hn & Hm) & Ha) & Hb).
    exists (Z.max start (l_start lock)). lia.
  - intros (x & Hx & Hy). lia.
Qed.

Lemma overlap_iff_intersect_witness :
  smb_lock_range_overlap (held owner1 SMB_LOCK_TYPE_READWRITE 0 100) 50 100
    = true <->
  ranges_intersect 50 100 0 100.
Proof.
  apply (proj2 (overlap_iff_intersect
                  (held owner1 SMB_LOCK_TYPE_READWRITE 0 100) 50 100));
    unfold range_no_wrap, UINT64_MAX; simpl; lia.
Defined.

(** C3: the test misses the claim wherever the 64-bit sum
    [start + length] wraps, against the header comment of the function
    (0 when the range does not overlap, 1 when it does).  A lock on
    [[1, 2^64)] and the one-byte range at offset 1 have offset 1 in
    common, yet the test answers "no overlap"; a one-byte lock at offset 0
    and the range of [2^64 - 1] bytes from offset 2 have no common offset,
    yet the test answers "overlap"; a one-byte lock on the last offset
    [2^64 - 1] does not overlap itself, so that a second owner is granted
    an Exclusive lock on the byte another owner holds an Exclusive lock
    on. *)
Lemma overlap_iff_intersect_fails_on_wrap :
  (is_uint64 1 /\ is_uint64 UINT64_MAX /\
   ranges_intersect 1 1 1 UINT64_MAX /\
   smb_lock_range_overlap
     (held owner1 SMB_LOCK_TYPE_READWRITE 1 UINT64_MAX) 1 1 = false) /\
  (is_uint64 2 /\ is_uint64 UINT64_MAX /\
   ~ ranges_intersect 2 UINT64_MAX 0 1 /\
   smb_lock_range_overlap
     (held owner1 SMB_LOCK_TYPE_READWRITE 0 1) 2 UINT64_MAX = true) /\
  (ranges_intersect UINT64_MAX 1 UINT64_MAX 1 /\
   smb_lock_range_overlap
     (held owner1 SMB_LOCK_TYPE_READWRITE UINT64_MAX 1) UINT64_MAX 1
   = false /\
   exists r,
     smb_lock_range owner2 UINT64_MAX 1 0 SMB_LOCK_TYPE_READWRITE
       (world_of [held owner1 SMB_LOCK_TYPE_READWRITE UINT64_MAX 1]
          open_file) [] = Returned r /\
     lr_status r = NT_STATUS_SUCCESS /\
     n_lock_list (w_node (lr_world r)) =
     [held owner1 SMB_LOCK_TYPE_READWRITE UINT64_MAX 1;
      held owner2 SMB_LOCK_TYPE_READWRITE UINT64_MAX 1]).
Proof.
  assert (H1 : is_uint64 1) by (unfold is_uint64, UINT64_MAX; lia).
  assert (H2 : is_uint64 2) by (unfold is_uint64, UINT64_MAX; lia).
  assert (HM : is_uint64 UINT64_MAX) by (unfold is_uint64, UINT64_MAX; lia).
  split; [|split].
  - split; [assumption|]. split; [assumption|]. split.
    + exists 1. unfold UINT64_MAX. lia.
    + vm_compute. reflexivity.
  - split; [assumption|]. split; [assumption|]. split.
    + intros (x & Hx & Hy). lia.
    + vm_compute. reflexivity.
  - split; [|split].
    + exists UINT64_MAX. unfold UINT64_MAX. lia.
    + vm_compute. reflexivity.
    + eexists. split; [vm_compute; reflexivity|].
      split; reflexivity.
Qed.

(** The test is symmetric for two ranges whose ends [start + length] do
    not exceed the largest 64-bit value. *)
Theorem overlap_symmetric_no_wrap (a b : smb_lock) :
  range_no_wrap (l_start a) (l_length a) ->
  range_no_wrap (l_start b) (l_length b) ->
  smb_lock_range_overlap a (l_start b) (l_length b) =
  smb_lock_range_overlap b (l_start a) (l_length a).
Proof.
  intros Ha Hb.
  rewrite (overlap_no_wrap _ _ _ Ha Hb), (overlap_no_wrap _ _ _ Hb Ha).
  destruct (l_length a =? 0), (l_length b =? 0),
    (l_start b <? l_start a + l_length a),
    (l_start a <? l_start b + l_length b); reflexivity.
Qed.

Lemma overlap_symmetric_no_wrap_witness :
  smb_lock_range_overlap (held owner1 SMB_LOCK_TYPE_READWRITE 0 100) 50 100 =
  smb_lock_range_overlap (held owner2 SMB_LOCK_TYPE_READONLY 50 100) 0 100.
Proof.
  apply (overlap_symmetric_no_wrap
           (held owner1 SMB_LOCK_TYPE_READWRITE 0 100)
           (held owner2 SMB_LOCK_TYPE_READONLY 50 100));
    unfold range_no_wrap, UINT64_MAX; simpl; lia.
Defined.

(** C4: the test is not symmetric when a 64-bit sum [start + length]
    wraps, although it sets out to compare the two ranges from both
    sides.  The range of [2^64 - 1] bytes from offset 1 ends exactly at
    [2^64], which the code reads as 0: as the lock it does not overlap
    the one-byte range at offset 1, as the range it overlaps the one-byte
    lock at offset 1.  The range of [2^64 - 1] bytes from offset 2 ends
    at [2^64 + 1], which the code reads as 1: tested against a one-byte
    lock at offset 0 it overlaps; the one-byte range tested against it as
    the lock does not. *)
Lemma overlap_not_symmetric_on_wrap :
  is_uint64 0 /\ is_uint64 1 /\ is_uint64 2 /\ is_uint64 UINT64_MAX /\
  smb_lock_range_overlap
    (held owner1 SMB_LOCK_TYPE_READWRITE 0 1) 2 UINT64_MAX = true /\
  smb_lock_range_overlap
    (held owner1 SMB_LOCK_TYPE_READWRITE 2 UINT64_MAX) 0 1 = false /\
  smb_lock_range_overlap
    (held owner1 SMB_LOCK_TYPE_READWRITE 1 UINT64_MAX) 1 1 = false /\
  smb_lock_range_overlap
    (held owner1 SMB_LOCK_TYPE_READWRITE 1 1) 1 UINT64_MAX = true.
Proof.
  unfold is_uint64, UINT64_MAX.
  repeat (split; [lia|]).
  repeat split; vm_compute; reflexivity.
Qed.

(** * Properties of the grant rules *)

Lemma lock_type_eqb_eq (a b : lock_type) :
  lock_type_eqb a b = true <-> a = b.
Proof. destruct a, b; simpl; split; congruence. Qed.

Lemma lock_owner_is_request_iff (lock : smb_lock) (sr : smb_request) :
  lock_owner_is_request lock sr = true <-> same_owner lock sr.
Proof.
  unfold lock_owner_is_request, same_owner.
  rewrite !andb_true_iff, !Z.eqb_eq. tauto.
Qed.

(** One turn of the loop: the member is passed over, or it is the
    conflict. *)
Lemma lckrules_scan_step (sr : smb_request) (dlock lock : smb_lock)
    (rest : list smb_lock) (i : nat) :
  (grant_skips sr dlock lock /\
   lckrules_scan sr dlock (lock :: rest) i =
   lckrules_scan sr dlock rest (S i)) \/
  (~ grant_skips sr dlock lock /\
   lckrules_scan sr dlock (lock :: rest) i =
   (NT_STATUS_LOCK_NOT_GRANTED, Some i)).
Proof.
  unfold grant_skips. cbn [lckrules_scan].
  destruct (smb_lock_range_overlap lock (l_start dlock) (l_length dlock))
    eqn:Hov; cbn [negb]; [|left; auto].
  destruct (lock_owner_is_request lock sr) eqn:Hown.
  - apply lock_owner_is_request_iff in Hown.
    destruct (l_type lock) eqn:Hl, (l_type dlock) eqn:Hd; cbn;
      try (left; split; [tauto | reflexivity]);
      right; (split; [|reflexivity]);
      intros [H | [[H1 H2] | (H1 & H2 & H3)]]; congruence.
  - assert (Hno : ~ same_owner lock sr).
    { rewrite <- lock_owner_is_request_iff. congruence. }
    destruct (l_type lock) eqn:Hl, (l_type dlock) eqn:Hd; cbn;
      try (left; split; [tauto | reflexivity]);
      right; (split; [|reflexivity]);
      intros [H | [[H1 H2] | (H1 & H2 & H3)]]; congruence || tauto.
Qed.

(** The scan started at position [i]: every member is passed over and
    the scan ends with success, or the scan stops at the first member
    that is not passed over and reports its position. *)
Lemma lckrules_scan_spec (sr : smb_request) (dlock : smb_lock)
    (locks : list smb_lock) :
  forall i : nat,
  (Forall (grant_skips sr dlock) locks /\
   lckrules_scan sr dlock locks i = (NT_STATUS_SUCCESS, None)) \/
  (exists before c after,
     locks = before ++ c :: after /\
     Forall (grant_skips sr dlock) before /\
     ~ grant_skips sr dlock c /\
     lckrules_scan sr dlock locks i =
     (NT_STATUS_LOCK_NOT_GRANTED, Some (i + List.length before)%nat)).
Proof.
  induction locks as [|lock rest IH]; intros i.
  - left. split; [constructor | reflexivity].
  - destruct (lckrules_scan_step sr dlock lock rest i) as [[Hs E] | [Hn E]].
    + rewrite E.
      destruct (IH (S i)) as [[Hall E'] | (b & c & a & -> & Hb & Hc & E')].
      * left. split; [constructor; assumption | assumption].
      * right. exists (lock :: b), c, a.
        repeat split; try assumption.
        -- constructor; assumption.
        -- rewrite E'. cbn [List.length]. do 2 f_equal. lia.
    + right. exists [], lock, rest.
      repeat split; try assumption.
      * constructor.
      * rewrite E. cbn [List.length]. do 2 f_equal. lia.
Qed.

Lemma Forall_not_middle {A : Type} (P : A -> Prop) (before after : list A)
    (c : A) :
  ~ P c -> ~ Forall P (before ++ c :: after).
Proof.
  intros Hc Hall. apply Forall_app in Hall as [_ Hall].
  inversion Hall; subst. contradiction.
Qed.

(** C1: on an open file handle, the scan of the active members in list
    order passes over a member that does not overlap the candidate, one
    that overlaps when both are Shared, and an Exclusive one that overlaps
    a Shared candidate of the same owner (open file, session, process and
    user all equal); it stops at the first other member and reports it
    with the status lock-not-granted.  The candidate is granted exactly
    when the scan runs to the end of the list this way.  (On a closed
    file handle the scan is not run and the status is range-not-locked.) *)
Theorem lckrules_first_conflict (sr : smb_request) (file : smb_ofile)
    (node : smb_node) (dlock : smb_lock) :
  ((smb_ofile_is_open file = false /\
    smb_lock_range_lckrules sr file node dlock =
    (NT_STATUS_RANGE_NOT_LOCKED, None)) \/
   (smb_ofile_is_open file = true /\
    Forall (grant_skips sr dlock) (n_lock_list node) /\
    smb_lock_range_lckrules sr file node dlock =
    (NT_STATUS_SUCCESS, None)) \/
   (smb_ofile_is_open file = true /\
    exists before c after,
      n_lock_list node = before ++ c :: after /\
      Forall (grant_skips sr dlock) before /\
      ~ grant_skips sr dlock c /\
      nth_error (n_lock_list node) (List.length before) = Some c /\
      smb_lock_range_lckrules sr file node dlock =
      (NT_STATUS_LOCK_NOT_GRANTED, Some (List.length before)))) /\
  (fst (smb_lock_range_lckrules sr file node dlock) = NT_STATUS_SUCCESS <->
   smb_ofile_is_open file = true /\
   Forall (grant_skips sr dlock) (n_lock_list node)).
Proof.
  unfold smb_lock_range_lckrules.
  destruct (smb_ofile_is_open file) eqn:Hopen; cbn [negb].
  - destruct (lckrules_scan_spec sr dlock (n_lock_list node) 0)
      as [[Hall E] | (b & c & a & El & Hb & Hc & E)].
    + rewrite E. split; [right; left; auto|].
      cbn. split; auto.
    + rewrite E. split.
      * right; right. split; [reflexivity|].
        exists b, c, a. repeat split; try assumption.
        rewrite El, nth_error_app2, Nat.sub_diag by lia. reflexivity.
      * cbn. split; [discriminate|].
        intros [_ Hall]. rewrite El in Hall.
        now apply Forall_not_middle in Hall.
  - split; [left; auto|].
    cbn. split; [discriminate | intros [H _]; discriminate].
Qed.

(** C10: for an Exclusive candidate on an open file handle, any active
    member that overlaps it is a conflict, whoever owns the member (the
    requester included): the status is lock-not-granted, and the member
    reported is the first one in list order that overlaps. *)
Theorem exclusive_candidate_conflicts (sr : smb_request) (file : smb_ofile)
    (node : smb_node) (dlock member : smb_lock) :
  l_type dlock = SMB_LOCK_TYPE_READWRITE ->
  smb_ofile_is_open file = true ->
  In member (n_lock_list node) ->
  smb_lock_range_overlap member (l_start dlock) (l_length dlock) = true ->
  exists before c after,
    n_lock_list node = before ++ c :: after /\
    Forall (fun m => smb_lock_range_overlap m (l_start dlock)
                       (l_length dlock) = false) before /\
    smb_lock_range_overlap c (l_start dlock) (l_length dlock) = true /\
    smb_lock_range_lckrules sr file node dlock =
    (NT_STATUS_LOCK_NOT_GRANTED, Some (List.length before)).
Proof.
  intros Hty Hopen Hin Hov.
  assert (Hskip : forall m, grant_skips sr dlock m <->
            smb_lock_range_overlap m (l_start dlock) (l_length dlock)
            = false).
  { intros m. unfold grant_skips. rewrite Hty. split.
    - intros [H | [[_ H] | (H & _)]]; [assumption | discriminate ..].
    - auto. }
  unfold smb_lock_range_lckrules. rewrite Hopen. cbn [negb].
  destruct (lckrules_scan_spec sr dlock (n_lock_list node) 0)
    as [[Hall E] | (b & c & a & El & Hb & Hc & E)].
  - rewrite Forall_forall in Hall. apply Hall, Hskip in Hin. congruence.
  - exists b, c, a. repeat split; try assumption.
    + eapply Forall_impl; [|exact Hb]. intros m. apply Hskip.
    + rewrite Hskip in Hc. now destruct (smb_lock_range_overlap c _ _).
Qed.

Lemma exclusive_candidate_conflicts_witness :
  exists before c after,
    [held owner2 SMB_LOCK_TYPE_READONLY 500 10;
     held owner1 SMB_LOCK_TYPE_READONLY 0 100] = before ++ c :: after /\
    Forall (fun m => smb_lock_range_overlap m 50 100 = false) before /\
    smb_lock_range_overlap c 50 100 = true /\
    smb_lock_range_lckrules owner1 open_file
      (mk_node [held owner2 SMB_LOCK_TYPE_READONLY 500 10;
                held owner1 SMB_LOCK_TYPE_READONLY 0 100])
      (smb_lock_create owner1 50 100 SMB_LOCK_TYPE_READWRITE 0) =
    (NT_STATUS_LOCK_NOT_GRANTED, Some (List.length before)).
Proof.
  apply (exclusive_candidate_conflicts owner1 open_file
           (mk_node [held owner2 SMB_LOCK_TYPE_READONLY 500 10;
                     held owner1 SMB_LOCK_TYPE_READONLY 0 100])
           (smb_lock_create owner1 50 100 SMB_LOCK_TYPE_READWRITE 0)
           (held owner1 SMB_LOCK_TYPE_READONLY 0 100)).
  - reflexivity.
  - reflexivity.
  - simpl. auto.
  - vm_compute. reflexivity.
Defined.

(** * Properties of unlock *)

Lemma ulckrules_scan_step (sr : smb_request) (start length : Z)
    (lock : smb_lock) (rest : list smb_lock) (i : nat) :
  (unlock_matches sr start length lock /\
   ulckrules_scan sr start length (lock :: rest) i =
   (NT_STATUS_SUCCESS, Some i)) \/
  (~ unlock_matches sr start length lock /\
   ulckrules_scan sr start length (lock :: rest) i =
   ulckrules_scan sr start length rest (S i)).
Proof.
  unfold unlock_matches, same_owner. cbn [ulckrules_scan].
  match goal with |- context [if ?c then _ else _] => destruct c eqn:E end.
  - left. rewrite !andb_true_iff, !Z.eqb_eq in E.
    split; [|reflexivity]. intuition congruence.
  - right. split; [|reflexivity].
    intros (H1 & H2 & H3 & H4 & H5 & H6).
    rewrite <- not_true_iff_false in E. apply E.
    rewrite !andb_true_iff, !Z.eqb_eq. intuition congruence.
Qed.

Lemma ulckrules_scan_spec (sr : smb_request) (start length : Z)
    (locks : list smb_lock) :
  forall i : nat,
  (Forall (fun l => ~ unlock_matches sr start length l) locks /\
   ulckrules_scan sr start length locks i =
   (NT_STATUS_RANGE_NOT_LOCKED, None)) \/
  (exists before c after,
     locks = before ++ c :: after /\
     Forall (fun l => ~ unlock_matches sr start length l) before /\
     unlock_matches sr start length c /\
     ulckrules_scan sr start length locks i =
     (NT_STATUS_SUCCESS, Some (i + List.length before)%nat)).
Proof.
  induction locks as [|lock rest IH]; intros i.
  - left. split; [constructor | reflexivity].
  - destruct (ulckrules_scan_step sr start length lock rest i)
      as [[Hm E] | [Hn E]]; rewrite E.
    + right. exists [], lock, rest.
      split; [reflexivity|]. split; [constructor|]. split; [assumption|].
      cbn [List.length]. do 2 f_equal. lia.
    + destruct (IH (S i)) as [[Hall E'] | (b & c & a & -> & Hb & Hc & E')].
      * left. split; [constructor; assumption | assumption].
      * right. exists (lock :: b), c, a.
        split; [reflexivity|]. split; [constructor; assumption|].
        split; [assumption|].
        rewrite E'. cbn [List.length]. do 2 f_equal. lia.
Qed.

Lemma smb_llist_remove_middle (before after : list smb_lock) (c : smb_lock) :
  smb_llist_remove (before ++ c :: after) (List.length before) =
  before ++ after.
Proof.
  unfold smb_llist_remove.
  induction before as [|x before IH]; [reflexivity|].
  cbn [List.length app firstn skipn] in *. now rewrite IH.
Qed.

(** C6: unlock succeeds exactly when some active record has the start,
    the length and the full owner (open file, session, process, user) of
    the request.  On success the first such record in list order, and no
    other, is unlinked from the list and handed to destruction; when no
    record matches in all these fields the status is range-not-locked and
    the list is left as it was. *)
Theorem unlock_exact_match (sr : smb_request) (node : smb_node)
    (start length : Z) :
  ((Forall (fun l => ~ unlock_matches sr start length l)
      (n_lock_list node) /\
    smb_unlock_range sr node start length =
    mk_unlock_result NT_STATUS_RANGE_NOT_LOCKED node None) \/
   (exists before c after,
      n_lock_list node = before ++ c :: after /\
      Forall (fun l => ~ unlock_matches sr start length l) before /\
      unlock_matches sr start length c /\
      smb_unlock_range sr node start length =
      mk_unlock_result NT_STATUS_SUCCESS (mk_node (before ++ after))
        (Some c))) /\
  (ur_status (smb_unlock_range sr node start length) = NT_STATUS_SUCCESS <->
   Exists (unlock_matches sr start length) (n_lock_list node)).
Proof.
  unfold smb_unlock_range, smb_lock_range_ulckrules.
  destruct (ulckrules_scan_spec sr start length (n_lock_list node) 0)
    as [[Hall E] | (b & c & a & El & Hb & Hc & E)];
    cbn [Nat.add] in E; rewrite E; cbn [ntstatus_eqb negb ur_status].
  - split; [left; auto|].
    split; [discriminate|].
    intros Hex. apply Exists_exists in Hex as (l & Hin & Hl).
    rewrite Forall_forall in Hall. now apply Hall in Hin.
  - rewrite El, smb_llist_remove_middle.
    rewrite nth_error_app2, Nat.sub_diag by lia.
    cbn [nth_error].
    split.
    + right. exists b, c, a. rewrite <- El. auto.
    + split; [|reflexivity].
      intros _. apply Exists_app. right. now constructor.
Qed.

(** * Properties of the access check *)

Lemma access_scan_step (sr : smb_request) (start length desired_access : Z)
    (lock : smb_lock) (rest : list smb_lock) :
  (access_skips sr start length desired_access lock /\
   access_scan sr start length desired_access (lock :: rest) =
   access_scan sr start length desired_access rest) \/
  (~ access_skips sr start length desired_access lock /\
   access_scan sr start length desired_access (lock :: rest) =
   NT_STATUS_FILE_LOCK_CONFLICT).
Proof.
  unfold access_skips, same_session_pid. cbn [access_scan].
  destruct (smb_lock_range_overlap lock start length) eqn:Hov;
    cbn [negb]; [|left; auto].
  destruct (l_type lock) eqn:Hl; cbn [lock_type_eqb andb].
  - destruct ((l_session_kid lock =? s_kid sr) && (l_pid lock =? smb_pid sr))
      eqn:E.
    + left. rewrite andb_true_iff, !Z.eqb_eq in E. split; auto.
    + right. split; [|reflexivity].
      rewrite <- not_true_iff_false, andb_true_iff, !Z.eqb_eq in E.
      intros [H | [[H _] | [_ H]]]; first [congruence | tauto].
  - destruct (Z.eqb_spec desired_access FILE_READ_DATA) as [Hd | Hd].
    + left. split; auto.
    + right. split; [|reflexivity].
      intros [H | [[_ H] | [H _]]]; congruence.
Qed.

(** C7: the access check passes over a member that does not overlap the
    range, a Shared member when the desired access is Read, and an
    Exclusive member whose session and process are those of the requester
    (user and open file are not compared); at the first other member it
    stops with the status file-lock-conflict.  It returns success exactly
    when every member is passed over.  This holds for every desired
    access, Read and Write in particular. *)
Theorem access_first_conflict (sr : smb_request) (node : smb_node)
    (start length desired_access : Z) :
  ((Forall (access_skips sr start length desired_access)
      (n_lock_list node) /\
    smb_lock_range_access sr node start length desired_access =
    NT_STATUS_SUCCESS) \/
   (exists before c after,
      n_lock_list node = before ++ c :: after /\
      Forall (access_skips sr start length desired_access) before /\
      ~ access_skips sr start length desired_access c /\
      smb_lock_range_access sr node start length desired_access =
      NT_STATUS_FILE_LOCK_CONFLICT)) /\
  (smb_lock_range_access sr node start length desired_access =
   NT_STATUS_SUCCESS <->
   Forall (access_skips sr start length desired_access) (n_lock_list node)).
Proof.
  unfold smb_lock_range_access.
  assert (H : (Forall (access_skips sr start length desired_access)
                 (n_lock_list node) /\
               access_scan sr start length desired_access (n_lock_list node)
               = NT_STATUS_SUCCESS) \/
              (exists before c after,
                 n_lock_list node = before ++ c :: after /\
                 Forall (access_skips sr start length desired_access) before /\
                 ~ access_skips sr start length desired_access c /\
                 access_scan sr start length desired_access
                   (n_lock_list node) = NT_STATUS_FILE_LOCK_CONFLICT)).
  { induction (n_lock_list node) as [|lock rest IH].
    - left. split; [constructor | reflexivity].
    - destruct (access_scan_step sr start length desired_access lock rest)
        as [[Hs E] | [Hn E]]; rewrite E.
      + destruct IH as [[Hall E'] | (b & c & a & -> & Hb & Hc & E')].
        * left. split; [constructor; assumption | assumption].
        * right. exists (lock :: b), c, a.
          repeat split; try assumption. constructor; assumption.
      + right. exists [], lock, rest.
        repeat split; try assumption. constructor. }
  split; [exact H|].
  destruct H as [[Hall E] | (b & c & a & El & Hb & Hc & E)]; rewrite E.
  - tauto.
  - split; [discriminate|].
    intros Hall. rewrite El in Hall. now apply Forall_not_middle in Hall.
Qed.

(** * Properties of lock *)

Lemma ntstatus_eqb_eq (a b : ntstatus) : ntstatus_eqb a b = true <-> a = b.
Proof. destruct a, b; simpl; split; congruence. Qed.

Lemma consumed_refl (events : list wait_event) (w : world) :
  consumed events events w w.
Proof. exists []. split; reflexivity. Qed.

Lemma consumed_trans (e1 e2 e3 : list wait_event) (w1 w2 w3 : world) :
  consumed e1 e2 w1 w2 -> consumed e2 e3 w2 w3 -> consumed e1 e3 w1 w3.
Proof.
  intros (u1 & -> & ->) (u2 & -> & ->).
  exists (u1 ++ u2). split.
  - now rewrite app_assoc.
  - unfold world_after. now rewrite fold_left_app.
Qed.

Lemma consumed_one (ev : wait_event) (rest : list wait_event) (w : world) :
  consumed (ev :: rest) rest w (ev_world ev).
Proof. exists [ev]. split; reflexivity. Qed.

(** When other threads leave a part [proj] of the shared objects as it
    is, the wake-ups do not change it. *)
Lemma consumed_quiet {A : Type} (proj : world -> A)
    (events rest : list wait_event) (w w' : world) :
  Forall (fun ev => proj (ev_world ev) = proj w) events ->
  consumed events rest w w' -> proj w' = proj w.
Proof.
  intros Hq (used & -> & ->).
  apply Forall_app in Hq as [Hq _].
  unfold world_after.
  induction used as [|ev used IH] using rev_ind; [reflexivity|].
  rewrite fold_left_app. cbn.
  apply Forall_app in Hq as [_ Hq]. now inversion Hq.
Qed.

(** [smb_lock_wait] changes the pending lock in [l_blocked_by] only,
    consumes at most one wake-up, and reports success only after one. *)
Lemma smb_lock_wait_spec (sr : smb_request) (b_lock : smb_lock) (c : nat)
    (w : world) (events : list wait_event) (we : wait_exit) :
  smb_lock_wait sr b_lock c w events = Returned we ->
  set_blocked_by (we_lock we) None = set_blocked_by b_lock None /\
  consumed events (we_rest we) w (we_world we) /\
  (we_status we = NT_STATUS_SUCCESS \/ we_status we = NT_STATUS_CANCELLED) /\
  (we_status we = NT_STATUS_SUCCESS ->
   List.length events = S (List.length (we_rest we)) /\
   sr_state (we_sr we) = SMB_REQ_STATE_ACTIVE).
Proof.
  unfold smb_lock_wait, mutex_exit_sr.
  destruct (sr_state sr); try discriminate.
  - destruct events as [|ev rest]; [discriminate|].
    destruct (ev_canceled ev).
    + intros [= <-]. cbn.
      repeat split; try apply consumed_one; auto; discriminate.
    + intros [= <-]. cbn.
      split; [reflexivity|]. split; [apply consumed_one|].
      split; [|auto].
      destruct (SMB_LOCK_INDEFINITE_WAIT _); [auto|].
      destruct (ev_timedout ev); auto.
Qed.

(** The invariant of the loop of [smb_lock_range]. *)
Lemma smb_lock_range_loop_spec (fuel : nat) :
  forall sr lock timeout w events evals waits le,
  smb_lock_range_loop fuel sr lock timeout w events evals waits
  = Returned le ->
  set_blocked_by (le_lock le) None = set_blocked_by lock None /\
  consumed events (le_rest le) w (le_world le) /\
  le_result le <> NT_STATUS_FILE_LOCK_CONFLICT /\
  (le_result le = NT_STATUS_LOCK_NOT_GRANTED -> timeout = 0) /\
  (le_result le = NT_STATUS_SUCCESS ->
   fst (smb_lock_range_lckrules (le_sr le) (w_file (le_world le))
          (w_node (le_world le)) (le_lock le)) = NT_STATUS_SUCCESS).
Proof.
  induction fuel as [|fuel IH]; intros sr lock timeout w events evals waits le;
    cbn [smb_lock_range_loop]; [discriminate|].
  destruct (smb_lock_range_lckrules sr (w_file w) (w_node w) lock)
    as [result clock] eqn:Erules.
  assert (Hstop : forall res,
    res <> NT_STATUS_FILE_LOCK_CONFLICT ->
    (res = NT_STATUS_LOCK_NOT_GRANTED -> timeout = 0) ->
    res = result ->
    Returned (mk_loop_exit res sr lock w events (S evals) waits)
    = Returned le ->
    set_blocked_by (le_lock le) None = set_blocked_by lock None /\
    consumed events (le_rest le) w (le_world le) /\
    le_result le <> NT_STATUS_FILE_LOCK_CONFLICT /\
    (le_result le = NT_STATUS_LOCK_NOT_GRANTED -> timeout = 0) /\
    (le_result le = NT_STATUS_SUCCESS ->
     fst (smb_lock_range_lckrules (le_sr le) (w_file (le_world le))
            (w_node (le_world le)) (le_lock le)) = NT_STATUS_SUCCESS)).
  { intros res H1 H2 H3 [= <-]. cbn.
    repeat split; auto using consumed_refl.
    intros ->. now rewrite Erules. }
  assert (Hwait : forall c,
    (if timeout =? 0
     then Returned (mk_loop_exit result sr lock w events (S evals) waits)
     else
       match smb_lock_wait sr lock c w events with
       | Returned we =>
           if negb (ntstatus_eqb (we_status we) NT_STATUS_SUCCESS)
           then Returned
                  (mk_loop_exit (we_status we) (we_sr we) (we_lock we)
                     (we_world we) (we_rest we) (S evals) (S waits))
           else smb_lock_range_loop fuel (we_sr we) (we_lock we) timeout
                  (we_world we) (we_rest we) (S evals) (S waits)
       | Blocked => Blocked
       | AssertFailed => AssertFailed
       | MutexNotHeld => MutexNotHeld
       | OutOfFuel => OutOfFuel
       end) = Returned le ->
    result <> NT_STATUS_SUCCESS ->
    result <> NT_STATUS_FILE_LOCK_CONFLICT ->
    set_blocked_by (le_lock le) None = set_blocked_by lock None /\
    consumed events (le_rest le) w (le_world le) /\
    le_result le <> NT_STATUS_FILE_LOCK_CONFLICT /\
    (le_result le = NT_STATUS_LOCK_NOT_GRANTED -> timeout = 0) /\
    (le_result le = NT_STATUS_SUCCESS ->
     fst (smb_lock_range_lckrules (le_sr le) (w_file (le_world le))
            (w_node (le_world le)) (le_lock le)) = NT_STATUS_SUCCESS)).
  { intros c. destruct (Z.eqb_spec timeout 0) as [Ht | Ht].
    - intros [= <-] Hns Hnf. cbn.
      repeat split; auto using consumed_refl. contradiction.
    - destruct (smb_lock_wait sr lock c w events) as [we| | | |] eqn:Ew;
        try discriminate.
      apply smb_lock_wait_spec in Ew as (Hl & Hc & Hst & _).
      destruct (ntstatus_eqb (we_status we) NT_STATUS_SUCCESS) eqn:Es;
        cbn [negb].
      + intros Hloop _ _.
        apply IH in Hloop as (Hl' & Hc' & Hnf & Ht' & Hg).
        repeat split; auto.
        * congruence.
        * eapply consumed_trans; eassumption.
      + intros [= <-] _ _. cbn.
        assert (we_status we = NT_STATUS_CANCELLED) as ->.
        { destruct Hst as [Hst | Hst]; [|assumption].
          apply ntstatus_eqb_eq in Hst. congruence. }
        repeat split; auto; discriminate. }
  assert (Hnf : result <> NT_STATUS_FILE_LOCK_CONFLICT).
  { intros ->. revert Erules. unfold smb_lock_range_lckrules.
    destruct (negb _); [discriminate|].
    destruct (lckrules_scan_spec sr lock (n_lock_list (w_node w)) 0)
      as [[_ E] | (b & c & a & _ & _ & _ & E)]; rewrite E; discriminate. }
  destruct result; try contradiction.
  - apply Hstop; [discriminate | discriminate | reflexivity].
  - destruct clock as [c|]; [|discriminate].
    intros H. apply (Hwait c H); discriminate.
  - apply Hstop; [discriminate | discriminate | reflexivity].
  - apply Hstop; [discriminate | discriminate | reflexivity].
Qed.

Lemma smb_lock_wait_fuel (sr : smb_request) (b_lock : smb_lock) (c : nat)
    (w : world) (events : list wait_event) :
  smb_lock_wait sr b_lock c w events <> OutOfFuel.
Proof.
  unfold smb_lock_wait, mutex_exit_sr.
  destruct (sr_state sr); try discriminate.
  destruct events as [|ev rest]; [discriminate|].
  destruct (ev_canceled ev); discriminate.
Qed.

(** The loop never makes more turns than there are wake-ups, plus one. *)
Lemma smb_lock_range_loop_fuel (fuel : nat) :
  forall sr lock timeout w events evals waits,
  (List.length events < fuel)%nat ->
  smb_lock_range_loop fuel sr lock timeout w events evals waits
  <> OutOfFuel.
Proof.
  induction fuel as [|fuel IH]; intros sr lock timeout w events evals waits Hf;
    [lia|].
  cbn [smb_lock_range_loop].
  destruct (smb_lock_range_lckrules sr (w_file w) (w_node w) lock)
    as [result clock].
  assert (Hwait : forall c,
    (if timeout =? 0
     then Returned (mk_loop_exit result sr lock w events (S evals) waits)
     else
       match smb_lock_wait sr lock c w events with
       | Returned we =>
           if negb (ntstatus_eqb (we_status we) NT_STATUS_SUCCESS)
           then Returned
                  (mk_loop_exit (we_status we) (we_sr we) (we_lock we)
                     (we_world we) (we_rest we) (S evals) (S waits))
           else smb_lock_range_loop fuel (we_sr we) (we_lock we) timeout
                  (we_world we) (we_rest we) (S evals) (S waits)
       | Blocked => Blocked
       | AssertFailed => AssertFailed
       | MutexNotHeld => MutexNotHeld
       | OutOfFuel => OutOfFuel
       end) <> OutOfFuel).
  { intros c. destruct (timeout =? 0); [discriminate|].
    destruct (smb_lock_wait sr lock c w events) as [we| | | |] eqn:Ew;
      try discriminate.
    - destruct (ntstatus_eqb (we_status we) NT_STATUS_SUCCESS) eqn:Es;
        cbn [negb]; [|discriminate].
      apply ntstatus_eqb_eq in Es.
      apply smb_lock_wait_spec in Ew as (_ & _ & _ & Hlen).
      destruct (Hlen Es) as [Hlen' _].
      apply IH. lia.
    - now apply smb_lock_wait_fuel in Ew. }
  destruct result; try discriminate;
    (destruct clock as [c|]; [apply Hwait | discriminate]).
Qed.

(** The model of [smb_lock_range] never stops for lack of fuel: the call
    returns, sleeps forever or trips an assertion. *)
Lemma smb_lock_range_fuel (sr : smb_request) (start length timeout : Z)
    (locktype : lock_type) (w : world) (events : list wait_event) :
  smb_lock_range sr start length timeout locktype w events <> OutOfFuel.
Proof.
  unfold smb_lock_range.
  pose proof (smb_lock_range_loop_fuel (S (List.length events)) sr
                (smb_lock_create sr start length locktype timeout) timeout
                w events 0 0 (Nat.lt_succ_diag_r _)) as H.
  destruct (smb_lock_range_loop _ _ _ _ _ _ _ _); congruence.
Qed.

Lemma land_bit63 (x : Z) :
  (Z.land x (Z.shiftl 1 63) =? 0) = negb (Z.testbit x 63).
Proof.
  assert (E : Z.land x (Z.shiftl 1 63) =
              if Z.testbit x 63 then 2 ^ 63 else 0).
  { apply Z.bits_inj'. intros n Hn.
    rewrite Z.land_spec, Z.shiftl_1_l.
    destruct (Z.testbit x 63) eqn:Hb.
    - destruct (Z.eq_dec 63 n) as [<- | Hne].
      + rewrite Hb. apply andb_true_l.
      + rewrite Z.pow2_bits_false by lia. apply andb_false_r.
    - rewrite Z.bits_0.
      destruct (Z.eq_dec 63 n) as [<- | Hne].
      + rewrite Hb. reflexivity.
      + rewrite Z.pow2_bits_false by lia. apply andb_false_r. }
  rewrite E. now destruct (Z.testbit x 63).
Qed.

(** The status computed for a refused request. *)
Lemma smb_lock_range_status_not_granted (timeout : Z) (lock : smb_lock)
    (file : smb_ofile) :
  (escalates timeout (l_start lock) file /\
   smb_lock_range_status NT_STATUS_LOCK_NOT_GRANTED timeout lock file =
   NT_STATUS_FILE_LOCK_CONFLICT) \/
  (~ escalates timeout (l_start lock) file /\
   smb_lock_range_status NT_STATUS_LOCK_NOT_GRANTED timeout lock file =
   NT_STATUS_LOCK_NOT_GRANTED).
Proof.
  unfold smb_lock_range_status, escalates.
  cbn [ntstatus_eqb]. rewrite land_bit63.
  destruct (Z.eqb_spec (Z.land (f_flags file) SMB_OFLAGS_LLF_POS_VALID) 0)
    as [Hv | Hv];
  destruct (Z.eqb_spec (l_start lock) (f_llf_pos file)) as [Hp | Hp];
  destruct (Z.geb_spec (l_start lock) 0xef000000) as [Hs | Hs];
  destruct (Z.testbit (l_start lock) 63) eqn:Hb;
  destruct (Z.eqb_spec timeout 0) as [Ht | Ht]; cbn;
    try (left; split; [|reflexivity]);
    try (right; split; [|reflexivity]);
    try tauto; try (right; left; split; [lia | assumption]);
    try (right; right; split; congruence);
    intros [H | [[H1 H2] | [H1 H2]]]; try congruence; try lia.
Qed.

Lemma smb_lock_range_status_other (result : ntstatus) (timeout : Z)
    (lock : smb_lock) (file : smb_ofile) :
  result <> NT_STATUS_LOCK_NOT_GRANTED ->
  smb_lock_range_status result timeout lock file = result.
Proof.
  unfold smb_lock_range_status. intros H.
  destruct result; try reflexivity. contradiction.
Qed.

Lemma smb_lock_range_status_failure (result : ntstatus) (timeout : Z)
    (lock : smb_lock) (file : smb_ofile) :
  result <> NT_STATUS_SUCCESS ->
  smb_lock_range_status result timeout lock file <> NT_STATUS_SUCCESS.
Proof.
  intros H.
  destruct result; try contradiction;
    try (rewrite smb_lock_range_status_other by discriminate; discriminate).
  destruct (smb_lock_range_status_not_granted timeout lock file)
    as [[_ E] | [_ E]]; rewrite E; discriminate.
Qed.

(** The code after the loop, case by case. *)
Lemma smb_lock_range_finish_spec (timeout : Z) (le : loop_exit) :
  let r := smb_lock_range_finish timeout le in
  let file := w_file (le_world le) in
  let lock := set_blocked_by (le_lock le) None in
  lr_raw r = le_result le /\ lr_exit r = le_world le /\
  lr_rest r = le_rest le /\ lr_evals r = le_evals le /\
  lr_waits r = le_waits le /\
  ((le_result le = NT_STATUS_SUCCESS /\
    lr_status r = NT_STATUS_SUCCESS /\
    lr_world r =
    mk_world (mk_node (n_lock_list (w_node (le_world le)) ++ [lock])) file)
   \/
   (le_result le <> NT_STATUS_SUCCESS /\
    lr_status r <> NT_STATUS_SUCCESS /\
    lr_status r = smb_lock_range_status (le_result le) timeout lock file /\
    lr_world r =
    mk_world (w_node (le_world le))
      (mk_ofile (f_open file)
         (Z.lor (f_flags file) SMB_OFLAGS_LLF_POS_VALID) (l_start lock)))).
Proof.
  unfold smb_lock_range_finish.
  destruct (ntstatus_eqb (le_result le) NT_STATUS_SUCCESS) eqn:E; cbn.
  - apply ntstatus_eqb_eq in E. repeat split; auto.
  - assert (Hne : le_result le <> NT_STATUS_SUCCESS).
    { rewrite <- ntstatus_eqb_eq. congruence. }
    repeat split; auto. right.
    repeat split; auto.
    now apply smb_lock_range_status_failure.
Qed.

Lemma smb_lock_range_returned (sr : smb_request) (start length timeout : Z)
    (locktype : lock_type) (w : world) (events : list wait_event)
    (r : lock_result) :
  smb_lock_range sr start length timeout locktype w events = Returned r ->
  exists le,
    smb_lock_range_loop (S (List.length events)) sr
      (smb_lock_create sr start length locktype timeout) timeout w events
      0 0 = Returned le /\
    r = smb_lock_range_finish timeout le.
Proof.
  unfold smb_lock_range.
  destruct (smb_lock_range_loop _ _ _ _ _ _ _ _) as [le| | | |];
    try discriminate.
  intros [= <-]. now exists le.
Qed.

(** The rules never report a conflict without the conflicting member, and
    never any status but success, range-not-locked and lock-not-granted. *)
Lemma lckrules_status (sr : smb_request) (file : smb_ofile)
    (node : smb_node) (dlock : smb_lock) :
  smb_lock_range_lckrules sr file node dlock =
    (NT_STATUS_SUCCESS, None) \/
  smb_lock_range_lckrules sr file node dlock =
    (NT_STATUS_RANGE_NOT_LOCKED, None) \/
  exists c, smb_lock_range_lckrules sr file node dlock =
    (NT_STATUS_LOCK_NOT_GRANTED, Some c).
Proof.
  unfold smb_lock_range_lckrules.
  destruct (negb (smb_ofile_is_open file)); [auto|].
  destruct (lckrules_scan_spec sr dlock (n_lock_list node) 0)
    as [[_ E] | (b & c & a & _ & _ & _ & E)]; rewrite E; eauto.
Qed.

(** With a zero timeout the loop makes one turn. *)
Lemma smb_lock_range_loop_timeout_zero (fuel : nat) (sr : smb_request)
    (lock : smb_lock) (w : world) (events : list wait_event)
    (evals waits : nat) :
  smb_lock_range_loop (S fuel) sr lock 0 w events evals waits =
  Returned
    (mk_loop_exit
       (fst (smb_lock_range_lckrules sr (w_file w) (w_node w) lock))
       sr lock w events (S evals) waits).
Proof.
  cbn [smb_lock_range_loop].
  destruct (lckrules_status sr (w_file w) (w_node w) lock)
    as [E | [E | [c E]]]; rewrite E; reflexivity.
Qed.



(** The loop leaves with lock-not-granted only when the timeout is zero:
    a request willing to wait leaves with success, with range-not-locked
    or with the cancellation status of [smb_lock_wait]. *)
Lemma lock_not_granted_timeout_zero (sr : smb_request)
    (start length timeout : Z) (locktype : lock_type) (w : world)
    (events : list wait_event) (r : lock_result) :
  smb_lock_range sr start length timeout locktype w events = Returned r ->
  lr_raw r = NT_STATUS_LOCK_NOT_GRANTED -> timeout = 0.
Proof.
  intros Hr Hraw.
  apply smb_lock_range_returned in Hr as (le & Hloop & ->).
  destruct (smb_lock_range_finish_spec timeout le) as (Eraw & _).
  rewrite Eraw in Hraw.
  now apply (smb_lock_range_loop_spec _ _ _ _ _ _ _ _ _ Hloop).
Qed.

(** C5 (as amended): a lock request with a zero timeout returns after one
    evaluation of the grant rules and no call of the wait operation,
    whatever the table holds: with success when the evaluation grants,
    with range-not-locked when the file handle is no longer open, and
    with a conflict status (lock-not-granted or file-lock-conflict)
    otherwise. *)
Theorem lock_timeout_zero (sr : smb_request) (start length : Z)
    (locktype : lock_type) (w : world) (events : list wait_event) :
  exists r,
    smb_lock_range sr start length 0 locktype w events = Returned r /\
    lr_evals r = 1%nat /\ lr_waits r = 0%nat /\ lr_rest r = events /\
    (fst (smb_lock_range_lckrules sr (w_file w) (w_node w)
            (smb_lock_create sr start length locktype 0))
     = NT_STATUS_SUCCESS -> lr_status r = NT_STATUS_SUCCESS) /\
    (smb_ofile_is_open (w_file w) = false ->
     lr_status r = NT_STATUS_RANGE_NOT_LOCKED) /\
    (smb_ofile_is_open (w_file w) = true ->
     fst (smb_lock_range_lckrules sr (w_file w) (w_node w)
            (smb_lock_create sr start length locktype 0))
     <> NT_STATUS_SUCCESS ->
     is_conflict_status (lr_status r)).
Proof.
  unfold smb_lock_range.
  rewrite smb_lock_range_loop_timeout_zero.
  eexists. split; [reflexivity|].
  destruct (smb_lock_range_finish_spec 0
    (mk_loop_exit
       (fst (smb_lock_range_lckrules sr (w_file w) (w_node w)
               (smb_lock_create sr start length locktype 0)))
       sr (smb_lock_create sr start length locktype 0) w events 1 0))
    as (_ & _ & Erest & Eev & Ewa & Hcase).
  cbn [le_result le_rest le_evals le_waits le_world le_lock] in *.
  repeat (split; [assumption|]).
  unfold is_conflict_status.
  destruct Hcase as [(Hs & Est & _) | (Hs & _ & Est & _)]; rewrite Est.
  - split; [auto|]. split; [|contradiction].
    intros Hclosed. revert Hs. unfold smb_lock_range_lckrules.
    rewrite Hclosed. discriminate.
  - split; [contradiction|].
    destruct (lckrules_status sr (w_file w) (w_node w)
                (smb_lock_create sr start length locktype 0))
      as [E | [E | [c E]]]; rewrite E in *; cbn [fst] in *.
    + contradiction.
    + rewrite smb_lock_range_status_other by discriminate.
      split; [reflexivity|].
      intros Hopen. revert E. unfold smb_lock_range_lckrules.
      rewrite Hopen. cbn [negb].
      destruct (lckrules_scan_spec sr
                  (smb_lock_create sr start length locktype 0)
                  (n_lock_list (w_node w)) 0)
        as [[_ E] | (b & c & a & _ & _ & _ & E)]; rewrite E; discriminate.
    + split.
      * intros Hclosed. revert E. unfold smb_lock_range_lckrules.
        rewrite Hclosed. discriminate.
      * intros _ _.
        destruct (smb_lock_range_status_not_granted 0
                    (set_blocked_by
                       (smb_lock_create sr start length locktype 0) None)
                    (w_file w)) as [[_ E'] | [_ E']]; rewrite E'; auto.
Qed.

(** C5 (as stated) fails on a file handle that was closed: with a zero
    timeout and an empty table the evaluation does not grant, and the
    status returned is range-not-locked, which is neither success nor a
    conflict status. *)
Lemma lock_timeout_zero_closed_file :
  exists r,
    smb_lock_range owner1 0 10 0 SMB_LOCK_TYPE_READWRITE
      (world_of [] closed_file) [] = Returned r /\
    fst (smb_lock_range_lckrules owner1 closed_file (mk_node [])
           (smb_lock_create owner1 0 10 SMB_LOCK_TYPE_READWRITE 0))
    <> NT_STATUS_SUCCESS /\
    lr_status r = NT_STATUS_RANGE_NOT_LOCKED /\
    ~ (lr_status r = NT_STATUS_SUCCESS \/ is_conflict_status (lr_status r)).
Proof.
  eexists. split; [vm_compute; reflexivity|].
  split; [vm_compute; discriminate|].
  split; [reflexivity|].
  unfold is_conflict_status. cbn [lr_status].
  intros [H | [H | H]]; discriminate.
Qed.

Lemma smb_lock_range_candidate (sr : smb_request)
    (start length timeout : Z) (locktype : lock_type) (w : world)
    (events : list wait_event) (le : loop_exit) :
  smb_lock_range_loop (S (List.length events)) sr
    (smb_lock_create sr start length locktype timeout) timeout w events
    0 0 = Returned le ->
  set_blocked_by (le_lock le) None =
  smb_lock_create sr start length locktype timeout /\
  consumed events (le_rest le) w (le_world le).
Proof.
  intros Hloop.
  apply smb_lock_range_loop_spec in Hloop as (Hl & Hc & _).
  split; [|assumption]. rewrite Hl. reflexivity.
Qed.

Lemma llf_pos_valid_set (flags : Z) :
  Z.land (Z.lor flags SMB_OFLAGS_LLF_POS_VALID) SMB_OFLAGS_LLF_POS_VALID
  <> 0.
Proof.
  rewrite Z.land_lor_distr_l, Z.land_diag.
  intros H. apply Z.lor_eq_0_iff in H as [_ H]. discriminate.
Qed.

(** C8: a lock request that returns a status other than success leaves
    the file's last-failed-offset marker equal to the requested start
    offset and flagged valid, whatever the status; a request that returns
    success leaves the marker and the flags of the file as they were (as
    the other threads left them at the last wake-up, and as they were at
    the call when no other thread touched the file). *)
Theorem lock_failure_marker (sr : smb_request) (start length timeout : Z)
    (locktype : lock_type) (w : world) (events : list wait_event)
    (r : lock_result) :
  smb_lock_range sr start length timeout locktype w events = Returned r ->
  consumed events (lr_rest r) w (lr_exit r) /\
  (lr_status r <> NT_STATUS_SUCCESS ->
   f_llf_pos (w_file (lr_world r)) = start /\
   Z.land (f_flags (w_file (lr_world r))) SMB_OFLAGS_LLF_POS_VALID <> 0 /\
   f_flags (w_file (lr_world r)) =
   Z.lor (f_flags (w_file (lr_exit r))) SMB_OFLAGS_LLF_POS_VALID) /\
  (lr_status r = NT_STATUS_SUCCESS ->
   w_file (lr_world r) = w_file (lr_exit r)) /\
  (lr_status r = NT_STATUS_SUCCESS ->
   Forall (fun ev => w_file (ev_world ev) = w_file w) events ->
   w_file (lr_world r) = w_file w).
Proof.
  intros Hr.
  apply smb_lock_range_returned in Hr as (le & Hloop & ->).
  apply smb_lock_range_candidate in Hloop as (Hl & Hc).
  destruct (smb_lock_range_finish_spec timeout le)
    as (_ & Eexit & Erest & _ & _ & Hcase).
  rewrite Eexit, Erest. split; [assumption|].
  rewrite Hl in Hcase. cbn [smb_lock_create l_start] in Hcase.
  destruct Hcase as [(_ & Est & Ew) | (_ & Hne & _ & Ew)]; rewrite Ew;
    cbn [w_file f_llf_pos f_flags].
  - split; [intros H; contradiction|].
    split; [reflexivity|].
    intros _ Hq.
    apply (consumed_quiet w_file events (le_rest le) w (le_world le) Hq Hc).
  - split.
    + intros _. split; [reflexivity|].
      split; [apply llf_pos_valid_set | reflexivity].
    + split; intros H; contradiction.
Qed.

Lemma lock_failure_marker_witness :
  exists r,
    smb_lock_range owner2 50 100 5000 SMB_LOCK_TYPE_READWRITE
      (world_of [held owner1 SMB_LOCK_TYPE_READWRITE 0 100] open_file)
      [mk_event true false
         (world_of [held owner1 SMB_LOCK_TYPE_READWRITE 0 100] open_file)]
    = Returned r /\
    lr_status r = NT_STATUS_CANCELLED /\
    f_llf_pos (w_file (lr_world r)) = 50 /\
    Z.land (f_flags (w_file (lr_world r))) SMB_OFLAGS_LLF_POS_VALID <> 0.
Proof.
  eexists. split; [vm_compute; reflexivity|].
  split; [reflexivity|].
  refine ((fun H => conj (proj1 H) (proj1 (proj2 H)))
            (proj1 (proj2 (lock_failure_marker owner2 50 100 5000
               SMB_LOCK_TYPE_READWRITE
               (world_of [held owner1 SMB_LOCK_TYPE_READWRITE 0 100]
                  open_file)
               [mk_event true false
                  (world_of [held owner1 SMB_LOCK_TYPE_READWRITE 0 100]
                     open_file)] _ _)) _)).
  - vm_compute. reflexivity.
  - cbn. discriminate.
Defined.

(** C9: a lock request that returns a status other than success (conflict,
    cancellation or closed file handle) leaves the list of active locks as
    it was: the candidate is never inserted.  The candidate is appended to
    the list exactly when the request returns success.  (The list "as it
    was" is the one the other threads left at the last wake-up; it is the
    list at the call when no other thread changed it.) *)
Theorem lock_failure_atomic (sr : smb_request) (start length timeout : Z)
    (locktype : lock_type) (w : world) (events : list wait_event)
    (r : lock_result) :
  smb_lock_range sr start length timeout locktype w events = Returned r ->
  consumed events (lr_rest r) w (lr_exit r) /\
  (lr_status r <> NT_STATUS_SUCCESS ->
   w_node (lr_world r) = w_node (lr_exit r)) /\
  (lr_status r <> NT_STATUS_SUCCESS ->
   Forall (fun ev => w_node (ev_world ev) = w_node w) events ->
   w_node (lr_world r) = w_node w) /\
  (lr_status r = NT_STATUS_SUCCESS ->
   n_lock_list (w_node (lr_world r)) =
   smb_llist_insert_tail (n_lock_list (w_node (lr_exit r)))
     (smb_lock_create sr start length locktype timeout)).
Proof.
  intros Hr.
  apply smb_lock_range_returned in Hr as (le & Hloop & ->).
  apply smb_lock_range_candidate in Hloop as (Hl & Hc).
  destruct (smb_lock_range_finish_spec timeout le)
    as (_ & Eexit & Erest & _ & _ & Hcase).
  rewrite Eexit, Erest. split; [assumption|].
  rewrite Hl in Hcase.
  destruct Hcase as [(_ & Est & Ew) | (_ & Hne & _ & Ew)]; rewrite Ew;
    cbn [w_node n_lock_list].
  - split; [intros H; contradiction|].
    split; [intros H; contradiction|].
    intros _. reflexivity.
  - split; [reflexivity|].
    split; [|intros H; contradiction].
    intros _ Hq.
    apply (consumed_quiet w_node events (le_rest le) w (le_world le) Hq Hc).
Qed.

Lemma lock_failure_atomic_witness :
  exists r,
    smb_lock_range owner2 50 100 5000 SMB_LOCK_TYPE_READWRITE
      (world_of [held owner1 SMB_LOCK_TYPE_READWRITE 0 100] open_file)
      [mk_event false true
         (world_of [held owner1 SMB_LOCK_TYPE_READWRITE 0 100] open_file)]
    = Returned r /\
    lr_status r = NT_STATUS_CANCELLED /\
    w_node (lr_world r) =
    mk_node [held owner1 SMB_LOCK_TYPE_READWRITE 0 100].
Proof.
  eexists. split; [vm_compute; reflexivity|].
  split; [reflexivity|].
  refine (proj1 (proj2 (proj2 (lock_failure_atomic owner2 50 100 5000
            SMB_LOCK_TYPE_READWRITE
            (world_of [held owner1 SMB_LOCK_TYPE_READWRITE 0 100]
               open_file)
            [mk_event false true
               (world_of [held owner1 SMB_LOCK_TYPE_READWRITE 0 100]
                  open_file)] _ _))) _ _).
  - vm_compute. reflexivity.
  - cbn. discriminate.
  - repeat constructor.
Defined.

(** * Scenarios *)

(** Owner 1 holds an Exclusive lock on [[0, 100)]; owner 2 asks for an
    Exclusive lock on [[50, 150)] with a timeout of 5000 ms and sleeps;
    owner 1 unlocks; owner 2 wakes up, evaluates the rules again and is
    granted the lock. *)
Example scenario_wait_then_grant :
  exists r,
    smb_lock_range owner2 50 100 5000 SMB_LOCK_TYPE_READWRITE
      (world_of [held owner1 SMB_LOCK_TYPE_READWRITE 0 100] open_file)
      [mk_event false false
         (world_of
            (n_lock_list
               (ur_node
                  (smb_unlock_range owner1
                     (mk_node [held owner1 SMB_LOCK_TYPE_READWRITE 0 100])
                     0 100)))
            open_file)]
    = Returned r /\
    lr_status r = NT_STATUS_SUCCESS /\
    lr_evals r = 2%nat /\ lr_waits r = 1%nat /\
    n_lock_list (w_node (lr_world r)) =
    [smb_lock_create owner2 50 100 SMB_LOCK_TYPE_READWRITE 5000].
Proof. eexists. split; [vm_compute; reflexivity|]. repeat split. Qed.

(** With no wake-up the same request sleeps forever. *)
Example scenario_no_wakeup :
  smb_lock_range owner2 50 100 5000 SMB_LOCK_TYPE_READWRITE
    (world_of [held owner1 SMB_LOCK_TYPE_READWRITE 0 100] open_file) []
  = Blocked.
Proof. reflexivity. Qed.

(** Two Shared locks of different owners on the same range coexist. *)
Example scenario_shared_coexist :
  exists r,
    smb_lock_range owner2 0 100 0 SMB_LOCK_TYPE_READONLY
      (world_of [held owner1 SMB_LOCK_TYPE_READONLY 0 100] open_file) []
    = Returned r /\
    lr_status r = NT_STATUS_SUCCESS /\
    n_lock_list (w_node (lr_world r)) =
    [held owner1 SMB_LOCK_TYPE_READONLY 0 100;
     held owner2 SMB_LOCK_TYPE_READONLY 0 100].
Proof. eexists. split; [vm_compute; reflexivity|]. repeat split. Qed.

(** A Shared request over an Exclusive lock is granted to the owner of
    the lock and refused to another owner. *)
Example scenario_shared_over_exclusive :
  fst (smb_lock_range_lckrules owner1 open_file
         (mk_node [held owner1 SMB_LOCK_TYPE_READWRITE 0 100])
         (smb_lock_create owner1 0 100 SMB_LOCK_TYPE_READONLY 0))
  = NT_STATUS_SUCCESS /\
  smb_lock_range_lckrules owner2 open_file
    (mk_node [held owner1 SMB_LOCK_TYPE_READWRITE 0 100])
    (smb_lock_create owner2 0 100 SMB_LOCK_TYPE_READONLY 0)
  = (NT_STATUS_LOCK_NOT_GRANTED, Some 0%nat).
Proof. split; vm_compute; reflexivity. Qed.

(** A refused request at offset 0xF0000000 is reported as a file lock
    conflict even with a zero timeout; the same request at offset 1000 is
    reported as lock-not-granted the first time and as a file lock
    conflict when repeated, since the marker of the file then matches. *)
Example scenario_escalation :
  (exists r,
     smb_lock_range owner2 0xF0000000 100 0 SMB_LOCK_TYPE_READONLY
       (world_of [held owner1 SMB_LOCK_TYPE_READWRITE 0xF0000000 100]
          open_file) [] = Returned r /\
     lr_status r = NT_STATUS_FILE_LOCK_CONFLICT) /\
  (exists r r',
     smb_lock_range owner2 1000 100 0 SMB_LOCK_TYPE_READONLY
       (world_of [held owner1 SMB_LOCK_TYPE_READWRITE 1000 100] open_file)
       [] = Returned r /\
     lr_status r = NT_STATUS_LOCK_NOT_GRANTED /\
     smb_lock_range owner2 1000 100 0 SMB_LOCK_TYPE_READONLY (lr_world r)
       [] = Returned r' /\
     lr_status r' = NT_STATUS_FILE_LOCK_CONFLICT).
Proof.
  split.
  - eexists. split; [vm_compute; reflexivity | reflexivity].
  - eexists. eexists.
    split; [vm_compute; reflexivity|].
    split; [reflexivity|].
    split; [vm_compute; reflexivity | reflexivity].
Qed.

(** Unlock removes the record of the requester and leaves an equal range
    of another owner locked. *)
Example scenario_unlock :
  smb_unlock_range owner2
    (mk_node [held owner1 SMB_LOCK_TYPE_READONLY 0 100;
              held owner2 SMB_LOCK_TYPE_READONLY 0 100]) 0 100 =
  mk_unlock_result NT_STATUS_SUCCESS
    (mk_node [held owner1 SMB_LOCK_TYPE_READONLY 0 100])
    (Some (held owner2 SMB_LOCK_TYPE_READONLY 0 100)) /\
  ur_status
    (smb_unlock_range owner2
       (mk_node [held owner1 SMB_LOCK_TYPE_READONLY 0 100]) 0 100)
  = NT_STATUS_RANGE_NOT_LOCKED.
Proof. split; vm_compute; reflexivity. Qed.

(** The access check compares session and process only: a writer of the
    same session and process passes an Exclusive lock taken through
    another open file by another user. *)
Example scenario_access_loose_owner :
  smb_lock_range_access
    (mk_request 999 7 11 99 SMB_REQ_STATE_ACTIVE None)
    (mk_node [held owner1 SMB_LOCK_TYPE_READWRITE 0 100])
    10 10 FILE_WRITE_DATA = NT_STATUS_SUCCESS /\
  smb_lock_range_access owner2
    (mk_node [held owner1 SMB_LOCK_TYPE_READWRITE 0 100])
    10 10 FILE_READ_DATA = NT_STATUS_FILE_LOCK_CONFLICT.
Proof. split; vm_compute; reflexivity. Qed.

(** * Further properties of the grant rules and of the access check *)

Lemma lckrules_success_iff (sr : smb_request) (file : smb_ofile)
    (node : smb_node) (dlock : smb_lock) :
  fst (smb_lock_range_lckrules sr file node dlock) = NT_STATUS_SUCCESS <->
  smb_ofile_is_open file = true /\
  Forall (grant_skips sr dlock) (n_lock_list node).
Proof.
  unfold smb_lock_range_lckrules.
  destruct (smb_ofile_is_open file); cbn [negb].
  - destruct (lckrules_scan_spec sr dlock (n_lock_list node) 0)
      as [[Hall E] | (b & c & a & El & Hb & Hc & E)]; rewrite E; cbn.
    + tauto.
    + split; [discriminate|]. intros [_ Hall]. rewrite El in Hall.
      now apply Forall_not_middle in Hall.
  - cbn. split; [discriminate | intros [H _]; discriminate].
Qed.

Lemma lckrules_failure_open (sr : smb_request) (file : smb_ofile)
    (node : smb_node) (dlock : smb_lock) :
  smb_ofile_is_open file = true ->
  fst (smb_lock_range_lckrules sr file node dlock) <> NT_STATUS_SUCCESS ->
  fst (smb_lock_range_lckrules sr file node dlock)
  = NT_STATUS_LOCK_NOT_GRANTED.
Proof.
  intros Hopen.
  destruct (lckrules_status sr file node dlock) as [E | [E | [c E]]];
    rewrite E; cbn; try congruence.
  revert E. unfold smb_lock_range_lckrules. rewrite Hopen. cbn [negb].
  destruct (lckrules_scan_spec sr dlock (n_lock_list node) 0)
    as [[_ E] | (b & c & a & _ & _ & _ & E)]; rewrite E; discriminate.
Qed.

Lemma access_success_iff (sr : smb_request) (node : smb_node)
    (start length desired_access : Z) :
  smb_lock_range_access sr node start length desired_access
  = NT_STATUS_SUCCESS <->
  Forall (access_skips sr start length desired_access) (n_lock_list node).
Proof.
  unfold smb_lock_range_access.
  induction (n_lock_list node) as [|lock rest IH].
  - split; [constructor | reflexivity].
  - destruct (access_scan_step sr start length desired_access lock rest)
      as [[Hs E] | [Hn E]]; rewrite E.
    + rewrite IH. split; [now constructor | now inversion 1].
    + split; [discriminate | inversion 1; contradiction].
Qed.

Lemma access_failure (sr : smb_request) (node : smb_node)
    (start length desired_access : Z) :
  smb_lock_range_access sr node start length desired_access
  <> NT_STATUS_SUCCESS ->
  smb_lock_range_access sr node start length desired_access
  = NT_STATUS_FILE_LOCK_CONFLICT.
Proof.
  unfold smb_lock_range_access.
  induction (n_lock_list node) as [|lock rest IH]; [now cbn|].
  destruct (access_scan_step sr start length desired_access lock rest)
    as [[Hs E] | [Hn E]]; rewrite E; auto.
Qed.

(** The status of the grant rules does not depend on the order of the
    active locks (only the member reported does). *)
Theorem lckrules_status_permutation (sr : smb_request) (file : smb_ofile)
    (dlock : smb_lock) (locks locks' : list smb_lock) :
  Permutation locks locks' ->
  fst (smb_lock_range_lckrules sr file (mk_node locks) dlock) =
  fst (smb_lock_range_lckrules sr file (mk_node locks') dlock).
Proof.
  intros Hp.
  assert (Hiff : fst (smb_lock_range_lckrules sr file (mk_node locks) dlock)
                 = NT_STATUS_SUCCESS <->
                 fst (smb_lock_range_lckrules sr file (mk_node locks') dlock)
                 = NT_STATUS_SUCCESS).
  { rewrite !lckrules_success_iff. cbn [n_lock_list].
    split; intros [Ho Hall]; (split; [assumption|]).
    - eapply Permutation_Forall; eassumption.
    - eapply Permutation_Forall; [apply Permutation_sym|]; eassumption. }
  destruct (smb_ofile_is_open file) eqn:Hopen.
  - destruct (ntstatus_eqb
                (fst (smb_lock_range_lckrules sr file (mk_node locks) dlock))
                NT_STATUS_SUCCESS) eqn:E.
    + apply ntstatus_eqb_eq in E. rewrite E. symmetry. now apply Hiff.
    + assert (Hn : fst (smb_lock_range_lckrules sr file (mk_node locks)
                          dlock) <> NT_STATUS_SUCCESS).
      { rewrite <- ntstatus_eqb_eq. congruence. }
      rewrite (lckrules_failure_open _ _ _ _ Hopen Hn).
      symmetry. apply lckrules_failure_open; [assumption|].
      intros H. now apply Hiff in H.
  - unfold smb_lock_range_lckrules. now rewrite Hopen.
Qed.

Lemma lckrules_status_permutation_witness :
  fst (smb_lock_range_lckrules owner2 open_file
         (mk_node [held owner1 SMB_LOCK_TYPE_READONLY 0 10;
                   held owner1 SMB_LOCK_TYPE_READWRITE 20 10])
         (smb_lock_create owner2 25 10 SMB_LOCK_TYPE_READONLY 0)) =
  fst (smb_lock_range_lckrules owner2 open_file
         (mk_node [held owner1 SMB_LOCK_TYPE_READWRITE 20 10;
                   held owner1 SMB_LOCK_TYPE_READONLY 0 10])
         (smb_lock_create owner2 25 10 SMB_LOCK_TYPE_READONLY 0)).
Proof.
  apply (lckrules_status_permutation owner2 open_file
           (smb_lock_create owner2 25 10 SMB_LOCK_TYPE_READONLY 0)
           [held owner1 SMB_LOCK_TYPE_READONLY 0 10;
            held owner1 SMB_LOCK_TYPE_READWRITE 20 10]
           [held owner1 SMB_LOCK_TYPE_READWRITE 20 10;
            held owner1 SMB_LOCK_TYPE_READONLY 0 10]).
  apply perm_swap.
Defined.

(** Rules 1 and 2 of the source: on an open file a Shared candidate is
    granted when every active lock is Shared or belongs to the requester,
    whatever the ranges. *)
Theorem shared_candidate_granted (sr : smb_request) (file : smb_ofile)
    (node : smb_node) (dlock : smb_lock) :
  smb_ofile_is_open file = true ->
  l_type dlock = SMB_LOCK_TYPE_READONLY ->
  Forall (fun m => l_type m = SMB_LOCK_TYPE_READONLY \/ same_owner m sr)
    (n_lock_list node) ->
  smb_lock_range_lckrules sr file node dlock = (NT_STATUS_SUCCESS, None).
Proof.
  intros Hopen Hty Hall.
  assert (Hs : fst (smb_lock_range_lckrules sr file node dlock)
               = NT_STATUS_SUCCESS).
  { apply lckrules_success_iff. split; [assumption|].
    eapply Forall_impl; [|exact Hall].
    intros m [Hm | Hm]; unfold grant_skips.
    - auto.
    - destruct (l_type m) eqn:Et; auto. }
  destruct (lckrules_status sr file node dlock) as [E | [E | [c E]]];
    rewrite E in *; cbn in Hs; congruence.
Qed.

Lemma shared_candidate_granted_witness :
  smb_lock_range_lckrules owner1 open_file
    (mk_node [held owner2 SMB_LOCK_TYPE_READONLY 0 100;
              held owner1 SMB_LOCK_TYPE_READWRITE 50 100])
    (smb_lock_create owner1 0 200 SMB_LOCK_TYPE_READONLY 0)
  = (NT_STATUS_SUCCESS, None).
Proof.
  apply (shared_candidate_granted owner1 open_file
           (mk_node [held owner2 SMB_LOCK_TYPE_READONLY 0 100;
                     held owner1 SMB_LOCK_TYPE_READWRITE 50 100])
           (smb_lock_create owner1 0 200 SMB_LOCK_TYPE_READONLY 0)).
  - reflexivity.
  - reflexivity.
  - constructor; [left; reflexivity|].
    constructor; [right; repeat split|]. constructor.
Defined.

(** A candidate of zero length overlaps nothing: on an open file it is
    granted whatever the active locks are. *)
Theorem zero_length_candidate_granted (sr : smb_request)
    (file : smb_ofile) (node : smb_node) (dlock : smb_lock) :
  smb_ofile_is_open file = true ->
  l_length dlock = 0 ->
  smb_lock_range_lckrules sr file node dlock = (NT_STATUS_SUCCESS, None).
Proof.
  intros Hopen Hlen.
  assert (Hs : fst (smb_lock_range_lckrules sr file node dlock)
               = NT_STATUS_SUCCESS).
  { apply lckrules_success_iff. split; [assumption|].
    apply Forall_forall. intros m _. left.
    apply overlap_zero_length. auto. }
  destruct (lckrules_status sr file node dlock) as [E | [E | [c E]]];
    rewrite E in *; cbn in Hs; congruence.
Qed.

Lemma zero_length_candidate_granted_witness :
  smb_lock_range_lckrules owner2 open_file
    (mk_node [held owner1 SMB_LOCK_TYPE_READWRITE 0 100])
    (smb_lock_create owner2 50 0 SMB_LOCK_TYPE_READWRITE 0)
  = (NT_STATUS_SUCCESS, None).
Proof.
  apply (zero_length_candidate_granted owner2 open_file
           (mk_node [held owner1 SMB_LOCK_TYPE_READWRITE 0 100])
           (smb_lock_create owner2 50 0 SMB_LOCK_TYPE_READWRITE 0));
    reflexivity.
Defined.

(** Whoever would be granted a lock on a range passes the access check
    on it: Read access for any granted candidate, and every access for
    a granted Exclusive candidate. *)
Theorem grant_implies_access (sr : smb_request) (file : smb_ofile)
    (node : smb_node) (dlock : smb_lock) :
  fst (smb_lock_range_lckrules sr file node dlock) = NT_STATUS_SUCCESS ->
  smb_lock_range_access sr node (l_start dlock) (l_length dlock)
    FILE_READ_DATA = NT_STATUS_SUCCESS /\
  (l_type dlock = SMB_LOCK_TYPE_READWRITE ->
   forall desired_access,
     smb_lock_range_access sr node (l_start dlock) (l_length dlock)
       desired_access = NT_STATUS_SUCCESS).
Proof.
  intros Hg. apply lckrules_success_iff in Hg as [_ Hall].
  split.
  - apply access_success_iff.
    eapply Forall_impl; [|exact Hall].
    intros m [H | [[H _] | (_ & H & _ & Hk & Hp & _)]];
      unfold access_skips, same_session_pid; auto.
  - intros Hty da. apply access_success_iff.
    eapply Forall_impl; [|exact Hall].
    intros m [H | [[_ H] | (H & _)]]; unfold access_skips; auto;
      congruence.
Qed.

Lemma grant_implies_access_witness :
  smb_lock_range_access owner1
    (mk_node [held owner1 SMB_LOCK_TYPE_READWRITE 0 100]) 50 10
    FILE_READ_DATA = NT_STATUS_SUCCESS.
Proof.
  refine (proj1 (grant_implies_access owner1 open_file
            (mk_node [held owner1 SMB_LOCK_TYPE_READWRITE 0 100])
            (smb_lock_create owner1 50 10 SMB_LOCK_TYPE_READONLY 0) _)).
  vm_compute. reflexivity.
Defined.

(** Whoever passes the access check for some desired access passes it for
    Read access: Write access is never easier to get than Read access. *)
Theorem access_implies_read_access (sr : smb_request) (node : smb_node)
    (start length desired_access : Z) :
  smb_lock_range_access sr node start length desired_access
  = NT_STATUS_SUCCESS ->
  smb_lock_range_access sr node start length FILE_READ_DATA
  = NT_STATUS_SUCCESS.
Proof.
  rewrite !access_success_iff. intros Hall.
  eapply Forall_impl; [|exact Hall].
  intros m [H | [[H _] | H]]; unfold access_skips; auto.
Qed.

Lemma access_implies_read_access_witness :
  smb_lock_range_access owner1
    (mk_node [held owner1 SMB_LOCK_TYPE_READWRITE 0 100]) 50 10
    FILE_READ_DATA = NT_STATUS_SUCCESS.
Proof.
  apply (access_implies_read_access owner1
           (mk_node [held owner1 SMB_LOCK_TYPE_READWRITE 0 100]) 50 10
           FILE_WRITE_DATA).
  vm_compute. reflexivity.
Defined.

(** A range of zero length passes the access check whatever the active
    locks and the desired access are. *)
Theorem access_zero_length (sr : smb_request) (node : smb_node)
    (start desired_access : Z) :
  smb_lock_range_access sr node start 0 desired_access = NT_STATUS_SUCCESS.
Proof.
  apply access_success_iff, Forall_forall. intros m _. left.
  apply overlap_zero_length. auto.
Qed.

(** * Further properties of unlock *)

Lemma unlock_matchb_iff (sr : smb_request) (start length : Z)
    (lock : smb_lock) :
  unlock_matchb sr start length lock = true <->
  unlock_matches sr start length lock.
Proof.
  unfold unlock_matchb, unlock_matches, same_owner.
  rewrite !andb_true_iff, !Z.eqb_eq. intuition congruence.
Qed.

Lemma filter_none {A : Type} (p : A -> bool) (l : list A) :
  Forall (fun x => p x = false) l -> filter p l = [].
Proof.
  induction 1 as [|x l Hx _ IH]; cbn; [reflexivity|]. now rewrite Hx.
Qed.

Lemma filter_all {A : Type} (p : A -> bool) (l : list A) :
  Forall (fun x => p x = true) l -> filter p l = l.
Proof.
  induction 1 as [|x l Hx _ IH]; cbn; [reflexivity|]. now rewrite Hx, IH.
Qed.

(** The two ways [smb_unlock_range] ends. *)
Lemma smb_unlock_range_cases (sr : smb_request) (node : smb_node)
    (start length : Z) :
  (Forall (fun l => unlock_matchb sr start length l = false)
     (n_lock_list node) /\
   smb_unlock_range sr node start length =
   mk_unlock_result NT_STATUS_RANGE_NOT_LOCKED node None) \/
  (exists before c after,
     n_lock_list node = before ++ c :: after /\
     Forall (fun l => unlock_matchb sr start length l = false) before /\
     unlock_matchb sr start length c = true /\
     smb_unlock_range sr node start length =
     mk_unlock_result NT_STATUS_SUCCESS (mk_node (before ++ after))
       (Some c)).
Proof.
  assert (Hno : forall l, ~ unlock_matches sr start length l ->
                          unlock_matchb sr start length l = false).
  { intros l H. rewrite <- unlock_matchb_iff in H.
    now destruct (unlock_matchb sr start length l). }
  unfold smb_unlock_range, smb_lock_range_ulckrules.
  destruct (ulckrules_scan_spec sr start length (n_lock_list node) 0)
    as [[Hall E] | (b & c & a & El & Hb & Hc & E)];
    cbn [Nat.add] in E; rewrite E; cbn [ntstatus_eqb negb].
  - left. split; [|reflexivity].
    eapply Forall_impl; [|exact Hall]. exact Hno.
  - right. exists b, c, a.
    rewrite El, smb_llist_remove_middle.
    rewrite nth_error_app2, Nat.sub_diag by lia. cbn [nth_error].
    repeat split.
    + eapply Forall_impl; [|exact Hb]. exact Hno.
    + now apply unlock_matchb_iff.
Qed.

(** Unlock removes the first of the records that match the request and
    nothing else: the records that do not match are left as they were, in
    order; of those that match, the first is handed to destruction and the
    others stay.  It fails exactly when no record matches. *)
Theorem unlock_removes_first_match (sr : smb_request) (node : smb_node)
    (start length : Z) :
  let r := smb_unlock_range sr node start length in
  let matching := filter (unlock_matchb sr start length) in
  let others := filter (fun l => negb (unlock_matchb sr start length l)) in
  ur_destroyed r = hd_error (matching (n_lock_list node)) /\
  matching (n_lock_list (ur_node r)) = tl (matching (n_lock_list node)) /\
  others (n_lock_list (ur_node r)) = others (n_lock_list node) /\
  (ur_status r = NT_STATUS_RANGE_NOT_LOCKED <->
   matching (n_lock_list node) = []).
Proof.
  cbv zeta.
  destruct (smb_unlock_range_cases sr node start length)
    as [[Hall E] | (b & c & a & El & Hb & Hc & E)]; rewrite E;
    cbn [ur_destroyed ur_node ur_status n_lock_list].
  - rewrite (filter_none _ _ Hall). cbn. tauto.
  - rewrite El, !filter_app. cbn [filter]. rewrite Hc. cbn [negb].
    rewrite (filter_none _ _ Hb). cbn.
    repeat split; discriminate.
Qed.

(** A failure of unlock is always range-not-locked, so that
    [smb_unlock_range_raise_error] never reaches its [ASSERT(0)] on a
    status of [smb_unlock_range]: the request is aborted with the NT
    status range-not-locked and the DOS error ERRDOS/ERRnotlocked. *)
Theorem unlock_failure_raised (sr : smb_request) (node : smb_node)
    (start length : Z) :
  ur_status (smb_unlock_range sr node start length) <> NT_STATUS_SUCCESS ->
  smb_unlock_range_raise_error
    (ur_status (smb_unlock_range sr node start length)) =
  Returned (smbsr_raise_cifs_error NT_STATUS_RANGE_NOT_LOCKED ERRDOS
              ERRnotlocked).
Proof.
  destruct (smb_unlock_range_cases sr node start length)
    as [[_ E] | (b & c & a & _ & _ & _ & E)]; rewrite E; cbn.
  - reflexivity.
  - congruence.
Qed.

Lemma unlock_failure_raised_witness :
  smb_unlock_range_raise_error
    (ur_status
       (smb_unlock_range owner2
          (mk_node [held owner1 SMB_LOCK_TYPE_READWRITE 0 100]) 0 100)) =
  Returned (smbsr_raise_cifs_error NT_STATUS_RANGE_NOT_LOCKED ERRDOS
              ERRnotlocked).
Proof.
  apply (unlock_failure_raised owner2
           (mk_node [held owner1 SMB_LOCK_TYPE_READWRITE 0 100]) 0 100).
  vm_compute. discriminate.
Defined.

(** * Properties of the cleanup at file close *)

Lemma destroy_scan_spec (file : Z) (locks : list smb_lock) :
  forall destroy_list,
  destroy_scan file locks destroy_list =
  (filter (fun l => negb (l_file l =? file)) locks,
   destroy_list ++ filter (fun l => l_file l =? file) locks).
Proof.
  induction locks as [|lock rest IH]; intros d; cbn [destroy_scan filter].
  - now rewrite app_nil_r.
  - destruct (l_file lock =? file); cbn [negb].
    + rewrite IH, <- app_assoc. reflexivity.
    + now rewrite IH.
Qed.

Lemma filter_partition_permutation {A : Type} (p : A -> bool)
    (l : list A) :
  Permutation l (filter p l ++ filter (fun x => negb (p x)) l).
Proof.
  induction l as [|x l IH]; cbn; [constructor|].
  destruct (p x); cbn.
  - now constructor.
  - now apply Permutation_cons_app.
Qed.

(** The cleanup at file close takes the locks of the closed file, all of
    them and no other, off the node and hands them to destruction in list
    order; the locks of the other files stay on the node in their order;
    no record is lost or duplicated. *)
Theorem destroy_lock_by_ofile_partition (node : smb_node) (file : Z) :
  let r := smb_node_destroy_lock_by_ofile node file in
  dr_destroyed r = filter (fun l => l_file l =? file) (n_lock_list node) /\
  n_lock_list (dr_node r) =
  filter (fun l => negb (l_file l =? file)) (n_lock_list node) /\
  Forall (fun l => l_file l = file) (dr_destroyed r) /\
  Forall (fun l => l_file l <> file) (n_lock_list (dr_node r)) /\
  Permutation (n_lock_list node)
    (dr_destroyed r ++ n_lock_list (dr_node r)).
Proof.
  cbv zeta. unfold smb_node_destroy_lock_by_ofile.
  rewrite destroy_scan_spec. cbn [app dr_destroyed dr_node n_lock_list].
  repeat split.
  - apply Forall_forall. intros l Hl.
    apply filter_In in Hl as [_ Hl]. now apply Z.eqb_eq.
  - apply Forall_forall. intros l Hl.
    apply filter_In in Hl as [_ Hl].
    apply negb_true_iff, Z.eqb_neq in Hl. exact Hl.
  - apply filter_partition_permutation.
Qed.

(** After the cleanup a second cleanup for the same file finds nothing to
    destroy and leaves the node as it is, and no unlock request issued
    through the closed file matches a record. *)
Theorem destroy_lock_by_ofile_idempotent (node : smb_node) (file : Z) :
  let node' := dr_node (smb_node_destroy_lock_by_ofile node file) in
  smb_node_destroy_lock_by_ofile node' file = mk_destroy_result node' [] /\
  (forall sr start length,
     fid_ofile sr = file ->
     smb_unlock_range sr node' start length =
     mk_unlock_result NT_STATUS_RANGE_NOT_LOCKED node' None).
Proof.
  cbv zeta. unfold smb_node_destroy_lock_by_ofile at 2 3 4 5.
  unfold smb_node_destroy_lock_by_ofile.
  rewrite !destroy_scan_spec. cbn [app dr_node n_lock_list].
  assert (Hrem : Forall (fun l => (l_file l =? file) = false)
                   (filter (fun l => negb (l_file l =? file))
                      (n_lock_list node))).
  { apply Forall_forall. intros l Hl.
    apply filter_In in Hl as [_ Hl]. now apply negb_true_iff. }
  split.
  - rewrite (filter_none _ _ Hrem). f_equal. f_equal.
    apply filter_all. eapply Forall_impl; [|exact Hrem].
    intros l Hl. cbn beta. now rewrite Hl.
  - intros sr start length Hf.
    destruct (smb_unlock_range_cases sr
                (mk_node (filter (fun l => negb (l_file l =? file))
                            (n_lock_list node))) start length)
      as [[_ E] | (b & c & a & El & _ & Hc & _)]; [exact E|].
    exfalso. cbn [n_lock_list] in El.
    rewrite El in Hrem. apply Forall_app in Hrem as [_ Hrem].
    inversion Hrem as [|? ? Hcf _].
    unfold unlock_matchb in Hc. rewrite !andb_true_iff in Hc.
    destruct Hc as (((((_ & _) & Hfile) & _) & _) & _).
    rewrite <- Hf in Hcf. congruence.
Qed.

(** A request blocked only by locks of the closed file is granted once
    the cleanup has run; locks of other files keep blocking it. *)
Theorem destroy_lock_by_ofile_unblocks (sr : smb_request)
    (ofile : smb_ofile) (node : smb_node) (dlock : smb_lock) (file : Z) :
  smb_ofile_is_open ofile = true ->
  (fst (smb_lock_range_lckrules sr ofile
          (dr_node (smb_node_destroy_lock_by_ofile node file)) dlock)
   = NT_STATUS_SUCCESS <->
   Forall (fun m => l_file m = file \/ grant_skips sr dlock m)
     (n_lock_list node)).
Proof.
  intros Hopen. rewrite lckrules_success_iff.
  unfold smb_node_destroy_lock_by_ofile.
  rewrite destroy_scan_spec. cbn [dr_node n_lock_list].
  rewrite !Forall_forall. split.
  - intros [_ Hall] m Hin.
    destruct (Z.eqb_spec (l_file m) file) as [Hf | Hf]; [auto|].
    right. apply Hall, filter_In. split; [assumption|].
    now apply negb_true_iff, Z.eqb_neq.
  - intros Hall. split; [assumption|].
    intros m Hin. apply filter_In in Hin as [Hin Hf].
    apply negb_true_iff, Z.eqb_neq in Hf.
    destruct (Hall m Hin); [contradiction | assumption].
Qed.

Lemma destroy_lock_by_ofile_unblocks_witness :
  fst (smb_lock_range_lckrules owner2 open_file
         (dr_node
            (smb_node_destroy_lock_by_ofile
               (mk_node [held owner1 SMB_LOCK_TYPE_READWRITE 0 100]) 100))
         (smb_lock_create owner2 50 100 SMB_LOCK_TYPE_READWRITE 0))
  = NT_STATUS_SUCCESS.
Proof.
  apply (proj2 (destroy_lock_by_ofile_unblocks owner2 open_file
                  (mk_node [held owner1 SMB_LOCK_TYPE_READWRITE 0 100])
                  (smb_lock_create owner2 50 100 SMB_LOCK_TYPE_READWRITE 0)
                  100 eq_refl)).
  constructor; [left; reflexivity | constructor].
Defined.

(** Taking locks off the node never turns a grant into a refusal, nor
    a passed access check into a conflict: what is granted, or passes,
    before an unlock or a cleanup is granted, or passes, after it. *)
Theorem removal_preserves_grant (sr : smb_request) (ofile : smb_ofile)
    (node : smb_node) (dlock : smb_lock) (sr' : smb_request)
    (start length file : Z) :
  (fst (smb_lock_range_lckrules sr ofile node dlock) = NT_STATUS_SUCCESS ->
   fst (smb_lock_range_lckrules sr ofile
          (ur_node (smb_unlock_range sr' node start length)) dlock)
   = NT_STATUS_SUCCESS /\
   fst (smb_lock_range_lckrules sr ofile
          (dr_node (smb_node_destroy_lock_by_ofile node file)) dlock)
   = NT_STATUS_SUCCESS) /\
  (forall s l desired_access,
     smb_lock_range_access sr node s l desired_access = NT_STATUS_SUCCESS ->
     smb_lock_range_access sr
       (ur_node (smb_unlock_range sr' node start length)) s l desired_access
     = NT_STATUS_SUCCESS /\
     smb_lock_range_access sr
       (dr_node (smb_node_destroy_lock_by_ofile node file)) s l
       desired_access = NT_STATUS_SUCCESS).
Proof.
  assert (Hu : incl (n_lock_list
                       (ur_node (smb_unlock_range sr' node start length)))
                    (n_lock_list node)).
  { destruct (smb_unlock_range_cases sr' node start length)
      as [[_ E] | (b & c & a & El & _ & _ & E)]; rewrite E;
      cbn [ur_node n_lock_list].
    - apply incl_refl.
    - rewrite El. intros x Hx. apply in_app_or in Hx as [Hx | Hx];
        apply in_or_app; [left | right; right]; assumption. }
  assert (Hd : incl (n_lock_list
                       (dr_node (smb_node_destroy_lock_by_ofile node file)))
                    (n_lock_list node)).
  { unfold smb_node_destroy_lock_by_ofile. rewrite destroy_scan_spec.
    cbn [dr_node n_lock_list]. intros x Hx.
    now apply filter_In in Hx as [Hx _]. }
  assert (Hincl : forall P (l l' : list smb_lock),
            incl l' l -> Forall P l -> Forall P l').
  { intros P l l' Hi Hall. rewrite Forall_forall in *. auto. }
  split.
  - rewrite !lckrules_success_iff. intros [Ho Hall].
    split; (split; [assumption|]).
    + exact (Hincl _ _ _ Hu Hall).
    + exact (Hincl _ _ _ Hd Hall).
  - intros s l da. rewrite !access_success_iff. intros Hall. split.
    + exact (Hincl _ _ _ Hu Hall).
    + exact (Hincl _ _ _ Hd Hall).
Qed.

(** * Further properties of lock *)

(** Induction over the turns of the loop of [smb_lock_range]: a property
    of the exit holds when it holds for a turn that leaves the loop after
    the evaluation, for a turn that leaves it after a failed wait, and
    is carried back over a turn that waits and goes on. *)
Lemma smb_lock_range_loop_ind (timeout : Z)
    (P : smb_request -> smb_lock -> world -> list wait_event ->
         nat -> nat -> loop_exit -> Prop) :
  (forall sr lock w events evals waits result clock,
     smb_lock_range_lckrules sr (w_file w) (w_node w) lock
     = (result, clock) ->
     result = NT_STATUS_SUCCESS \/ result = NT_STATUS_RANGE_NOT_LOCKED \/
     (result = NT_STATUS_LOCK_NOT_GRANTED /\ timeout = 0) ->
     P sr lock w events evals waits
       (mk_loop_exit result sr lock w events (S evals) waits)) ->
  (forall sr lock w events evals waits c we,
     smb_lock_range_lckrules sr (w_file w) (w_node w) lock
     = (NT_STATUS_LOCK_NOT_GRANTED, Some c) ->
     timeout <> 0 ->
     smb_lock_wait sr lock c w events = Returned we ->
     we_status we = NT_STATUS_CANCELLED ->
     P sr lock w events evals waits
       (mk_loop_exit (we_status we) (we_sr we) (we_lock we) (we_world we)
          (we_rest we) (S evals) (S waits))) ->
  (forall sr lock w events evals waits c we le,
     smb_lock_range_lckrules sr (w_file w) (w_node w) lock
     = (NT_STATUS_LOCK_NOT_GRANTED, Some c) ->
     timeout <> 0 ->
     smb_lock_wait sr lock c w events = Returned we ->
     we_status we = NT_STATUS_SUCCESS ->
     P (we_sr we) (we_lock we) (we_world we) (we_rest we)
       (S evals) (S waits) le ->
     P sr lock w events evals waits le) ->
  forall fuel sr lock w events evals waits le,
    smb_lock_range_loop fuel sr lock timeout w events evals waits
    = Returned le ->
    P sr lock w events evals waits le.
Proof.
  intros Hstop Hfail Hnext.
  induction fuel as [|fuel IH]; intros sr lock w events evals waits le;
    cbn [smb_lock_range_loop]; [discriminate|].
  destruct (lckrules_status sr (w_file w) (w_node w) lock)
    as [E | [E | [c E]]]; rewrite E.
  - intros [= <-]. eapply Hstop; eauto.
  - intros [= <-]. eapply Hstop; eauto.
  - destruct (Z.eqb_spec timeout 0) as [Ht | Ht].
    + intros [= <-]. eapply Hstop; eauto.
    + destruct (smb_lock_wait sr lock c w events) as [we| | | |] eqn:Ew;
        try discriminate.
      pose proof (smb_lock_wait_spec _ _ _ _ _ _ Ew) as (_ & _ & Hst & _).
      destruct Hst as [Hst | Hst]; rewrite Hst; cbn [ntstatus_eqb negb].
      * intros Hloop. eapply Hnext; eauto.
      * intros [= <-]. rewrite <- Hst. eapply Hfail; eauto.
Qed.

(** The request at the exit of the loop is the request of the caller:
    same open file, session, process and user; its wait slot is empty if
    it was at the call, and it is not left in the waiting state. *)
Lemma smb_lock_range_loop_request (timeout : Z) (fuel : nat) :
  forall sr lock w events evals waits le,
  smb_lock_range_loop fuel sr lock timeout w events evals waits
  = Returned le ->
  same_requester sr (le_sr le) /\
  (sr_awaiting sr = None -> sr_awaiting (le_sr le) = None) /\
  (sr_state sr <> SMB_REQ_STATE_WAITING_LOCK ->
   sr_state (le_sr le) <> SMB_REQ_STATE_WAITING_LOCK).
Proof.
  assert (Hwait : forall sr lock c w events we,
            smb_lock_wait sr lock c w events = Returned we ->
            same_requester sr (we_sr we) /\
            (sr_awaiting sr = None -> sr_awaiting (we_sr we) = None) /\
            sr_state (we_sr we) <> SMB_REQ_STATE_WAITING_LOCK).
  { intros sr lock c w events we.
    unfold smb_lock_wait, mutex_exit_sr, same_requester.
    destruct (sr_state sr) eqn:Est; try discriminate.
    destruct events as [|ev rest]; [discriminate|].
    destruct (ev_canceled ev); intros [= <-]; cbn;
      repeat split; auto; discriminate. }
  apply (smb_lock_range_loop_ind timeout
           (fun sr lock w events evals waits le =>
              same_requester sr (le_sr le) /\
              (sr_awaiting sr = None -> sr_awaiting (le_sr le) = None) /\
              (sr_state sr <> SMB_REQ_STATE_WAITING_LOCK ->
               sr_state (le_sr le) <> SMB_REQ_STATE_WAITING_LOCK))).
  - intros. cbn. unfold same_requester. auto.
  - intros sr lock w events evals waits c we _ _ Ew _. cbn.
    apply Hwait in Ew as (H1 & H2 & H3). auto.
  - intros sr lock w events evals waits c we le _ _ Ew _ (I1 & I2 & I3).
    apply Hwait in Ew as (H1 & H2 & H3).
    split; [|split].
    + unfold same_requester in *.
      destruct H1 as (A1 & A2 & A3 & A4), I1 as (B1 & B2 & B3 & B4).
      repeat split; congruence.
    + intros Ha. apply I2, H2, Ha.
    + intros _. apply I3, H3.
Qed.

Lemma grant_skips_same_requester (sr sr' : smb_request)
    (dlock dlock' m : smb_lock) :
  same_requester sr sr' ->
  set_blocked_by dlock' None = set_blocked_by dlock None ->
  grant_skips sr' dlock' m <-> grant_skips sr dlock m.
Proof.
  intros (H1 & H2 & H3 & H4) Hl.
  assert (l_start dlock' = l_start dlock /\
          l_length dlock' = l_length dlock /\
          l_type dlock' = l_type dlock) as (Es & El & Et).
  { unfold set_blocked_by in Hl. injection Hl. auto. }
  unfold grant_skips, same_owner. rewrite Es, El, Et, H1, H2, H3, H4.
  reflexivity.
Qed.

Lemma lr_sr_finish (timeout : Z) (le : loop_exit) :
  lr_sr (smb_lock_range_finish timeout le) = le_sr le.
Proof.
  unfold smb_lock_range_finish.
  now destruct (negb (ntstatus_eqb (le_result le) NT_STATUS_SUCCESS)).
Qed.

(** A lock request willing to wait never returns a conflict status:
    with a nonzero timeout the status returned is success,
    range-not-locked or cancelled, never lock-not-granted or
    file-lock-conflict. *)
Theorem lock_waiting_never_conflict (sr : smb_request)
    (start length timeout : Z) (locktype : lock_type) (w : world)
    (events : list wait_event) (r : lock_result) :
  timeout <> 0 ->
  smb_lock_range sr start length timeout locktype w events = Returned r ->
  lr_status r = NT_STATUS_SUCCESS \/
  lr_status r = NT_STATUS_RANGE_NOT_LOCKED \/
  lr_status r = NT_STATUS_CANCELLED.
Proof.
  intros Ht Hr.
  apply smb_lock_range_returned in Hr as (le & Hloop & ->).
  apply smb_lock_range_loop_spec in Hloop as (_ & _ & Hnf & Hng & _).
  destruct (smb_lock_range_finish_spec timeout le)
    as (_ & _ & _ & _ & _ & [(_ & Est & _) | (_ & _ & Est & _)]);
    [auto|].
  rewrite Est.
  destruct (le_result le) eqn:Eres;
    try (rewrite smb_lock_range_status_other by discriminate; auto).
  - now specialize (Hng eq_refl).
  - contradiction.
Qed.

Lemma lock_waiting_never_conflict_witness :
  exists r,
    smb_lock_range owner2 50 100 5000 SMB_LOCK_TYPE_READWRITE
      (world_of [held owner1 SMB_LOCK_TYPE_READWRITE 0 100] open_file)
      [mk_event true false
         (world_of [held owner1 SMB_LOCK_TYPE_READWRITE 0 100] open_file)]
    = Returned r /\
    (lr_status r = NT_STATUS_SUCCESS \/
     lr_status r = NT_STATUS_RANGE_NOT_LOCKED \/
     lr_status r = NT_STATUS_CANCELLED).
Proof.
  eexists. split; [vm_compute; reflexivity|].
  refine (lock_waiting_never_conflict owner2 50 100 5000
            SMB_LOCK_TYPE_READWRITE
            (world_of [held owner1 SMB_LOCK_TYPE_READWRITE 0 100] open_file)
            [mk_event true false
               (world_of [held owner1 SMB_LOCK_TYPE_READWRITE 0 100]
                  open_file)] _ _ _).
  - discriminate.
  - vm_compute. reflexivity.
Defined.

(** A lock is granted only on an open file and only when it is
    compatible with every lock active at that moment: when the request
    returns success, the file was open and every member of the list the
    candidate was appended to is one the grant rules pass over. *)
Theorem lock_success_compatible (sr : smb_request)
    (start length timeout : Z) (locktype : lock_type) (w : world)
    (events : list wait_event) (r : lock_result) :
  smb_lock_range sr start length timeout locktype w events = Returned r ->
  lr_status r = NT_STATUS_SUCCESS ->
  smb_ofile_is_open (w_file (lr_exit r)) = true /\
  Forall (grant_skips sr (smb_lock_create sr start length locktype timeout))
    (n_lock_list (w_node (lr_exit r))) /\
  w_file (lr_world r) = w_file (lr_exit r) /\
  same_requester sr (lr_sr r).
Proof.
  intros Hr Hs.
  apply smb_lock_range_returned in Hr as (le & Hloop & ->).
  pose proof (smb_lock_range_loop_request _ _ _ _ _ _ _ _ _ Hloop)
    as (Hreq & _).
  apply smb_lock_range_loop_spec in Hloop as (Hl & _ & _ & _ & Hg).
  destruct (smb_lock_range_finish_spec timeout le)
    as (_ & Eexit & _ & _ & _ & [(Eres & _ & Ew) | (_ & Hne & _)]);
    [|contradiction].
  rewrite Eexit, Ew, lr_sr_finish. cbn [w_file].
  apply Hg, lckrules_success_iff in Eres as [Hopen Hall].
  split; [assumption|]. split; [|split; [reflexivity | assumption]].
  eapply Forall_impl; [|exact Hall].
  intros m Hm.
  exact (proj1 (grant_skips_same_requester _ _ _ _ m Hreq Hl) Hm).
Qed.

Lemma lock_success_compatible_witness :
  exists r,
    smb_lock_range owner2 0 100 0 SMB_LOCK_TYPE_READONLY
      (world_of [held owner1 SMB_LOCK_TYPE_READONLY 0 100] open_file) []
    = Returned r /\
    Forall (grant_skips owner2
              (smb_lock_create owner2 0 100 SMB_LOCK_TYPE_READONLY 0))
      (n_lock_list (w_node (lr_exit r))).
Proof.
  eexists. split; [vm_compute; reflexivity|].
  refine (proj1 (proj2 (lock_success_compatible owner2 0 100 0
            SMB_LOCK_TYPE_READONLY
            (world_of [held owner1 SMB_LOCK_TYPE_READONLY 0 100] open_file)
            [] _ _ _))).
  - vm_compute. reflexivity.
  - reflexivity.
Defined.

(** The shared objects a successful request leaves. *)
Lemma smb_lock_range_success_world (sr : smb_request)
    (start length timeout : Z) (locktype : lock_type) (w : world)
    (events : list wait_event) (r : lock_result) :
  smb_lock_range sr start length timeout locktype w events = Returned r ->
  lr_status r = NT_STATUS_SUCCESS ->
  smb_ofile_is_open (w_file (lr_exit r)) = true /\
  lr_world r =
  mk_world
    (mk_node (n_lock_list (w_node (lr_exit r)) ++
              [smb_lock_create sr start length locktype timeout]))
    (w_file (lr_exit r)).
Proof.
  intros Hr Hs.
  apply smb_lock_range_returned in Hr as (le & Hloop & ->).
  pose proof (smb_lock_range_candidate _ _ _ _ _ _ _ _ Hloop) as (Hl & _).
  apply smb_lock_range_loop_spec in Hloop as (_ & _ & _ & _ & Hg).
  destruct (smb_lock_range_finish_spec timeout le)
    as (_ & Eexit & _ & _ & _ & [(Eres & _ & Ew) | (_ & Hne & _)]);
    [|contradiction].
  rewrite Eexit, Ew, Hl.
  apply Hg, lckrules_success_iff in Eres as [Hopen _]. auto.
Qed.

(** A request whose first evaluation ends with success or with
    range-not-locked returns at once, whatever its timeout. *)
Lemma smb_lock_range_first_evaluation (sr : smb_request)
    (start length timeout : Z) (locktype : lock_type) (w : world)
    (events : list wait_event) (result : ntstatus) :
  fst (smb_lock_range_lckrules sr (w_file w) (w_node w)
         (smb_lock_create sr start length locktype timeout)) = result ->
  result = NT_STATUS_SUCCESS \/ result = NT_STATUS_RANGE_NOT_LOCKED ->
  smb_lock_range sr start length timeout locktype w events =
  Returned
    (smb_lock_range_finish timeout
       (mk_loop_exit result sr
          (smb_lock_create sr start length locktype timeout) w events 1 0)).
Proof.
  intros E Hres. unfold smb_lock_range. cbn [smb_lock_range_loop].
  destruct (smb_lock_range_lckrules sr (w_file w) (w_node w)
              (smb_lock_create sr start length locktype timeout))
    as [res clock].
  cbn [fst] in E. subst res. now destruct Hres as [-> | ->].
Qed.

(** A lock request of zero length on an open file is granted at once,
    whatever the active locks and the timeout are: one evaluation, no
    wait, and the record is appended to the list. *)
Theorem lock_zero_length (sr : smb_request) (start timeout : Z)
    (locktype : lock_type) (w : world) (events : list wait_event) :
  smb_ofile_is_open (w_file w) = true ->
  exists r,
    smb_lock_range sr start 0 timeout locktype w events = Returned r /\
    lr_status r = NT_STATUS_SUCCESS /\
    lr_evals r = 1%nat /\ lr_waits r = 0%nat /\ lr_rest r = events /\
    n_lock_list (w_node (lr_world r)) =
    n_lock_list (w_node w) ++ [smb_lock_create sr start 0 locktype timeout].
Proof.
  intros Hopen.
  assert (E : fst (smb_lock_range_lckrules sr (w_file w) (w_node w)
                     (smb_lock_create sr start 0 locktype timeout))
              = NT_STATUS_SUCCESS).
  { apply lckrules_success_iff. split; [assumption|].
    apply Forall_forall. intros m _. left.
    apply overlap_zero_length. auto. }
  eexists. split.
  - apply (smb_lock_range_first_evaluation _ _ _ _ _ _ _ _ E). auto.
  - cbn. repeat split.
Qed.

Lemma lock_zero_length_witness :
  exists r,
    smb_lock_range owner2 50 0 5000 SMB_LOCK_TYPE_READWRITE
      (world_of [held owner1 SMB_LOCK_TYPE_READWRITE 0 100] open_file) []
    = Returned r /\
    lr_status r = NT_STATUS_SUCCESS.
Proof.
  destruct (lock_zero_length owner2 50 5000 SMB_LOCK_TYPE_READWRITE
              (world_of [held owner1 SMB_LOCK_TYPE_READWRITE 0 100]
                 open_file) [] eq_refl) as (r & Hr & Hs & _).
  exists r. split; assumption.
Defined.

(** A lock request on a file handle that is closed returns
    range-not-locked at once, whatever the timeout and the active locks:
    one evaluation, no wait, the list of locks untouched, and the
    last-failed-offset marker of the file set. *)
Theorem lock_closed_file (sr : smb_request) (start length timeout : Z)
    (locktype : lock_type) (w : world) (events : list wait_event) :
  smb_ofile_is_open (w_file w) = false ->
  exists r,
    smb_lock_range sr start length timeout locktype w events = Returned r /\
    lr_status r = NT_STATUS_RANGE_NOT_LOCKED /\
    lr_evals r = 1%nat /\ lr_waits r = 0%nat /\ lr_rest r = events /\
    w_node (lr_world r) = w_node w /\
    f_llf_pos (w_file (lr_world r)) = start.
Proof.
  intros Hclosed.
  assert (E : fst (smb_lock_range_lckrules sr (w_file w) (w_node w)
                     (smb_lock_create sr start length locktype timeout))
              = NT_STATUS_RANGE_NOT_LOCKED).
  { unfold smb_lock_range_lckrules. now rewrite Hclosed. }
  eexists. split.
  - apply (smb_lock_range_first_evaluation _ _ _ _ _ _ _ _ E). auto.
  - cbn. repeat split.
Qed.

Lemma lock_closed_file_witness :
  exists r,
    smb_lock_range owner2 50 100 5000 SMB_LOCK_TYPE_READWRITE
      (world_of [held owner1 SMB_LOCK_TYPE_READWRITE 0 100] closed_file) []
    = Returned r /\
    lr_status r = NT_STATUS_RANGE_NOT_LOCKED.
Proof.
  destruct (lock_closed_file owner2 50 100 5000 SMB_LOCK_TYPE_READWRITE
              (world_of [held owner1 SMB_LOCK_TYPE_READWRITE 0 100]
                 closed_file) [] eq_refl) as (r & Hr & Hs & _).
  exists r. split; assumption.
Defined.

(** A request that is already cancelled when it asks for a lock.  When
    its first evaluation conflicts and it was willing to wait, the call
    enters [smb_lock_wait] in the cancelled state, where [sr_mutex],
    taken once, is released by the branch and again at the end of the
    function: the call does not return.  In every other case the call
    returns after that one evaluation, with no call of the wait
    operation and no wake-up consumed, as it does for any request. *)
Theorem lock_cancelled_request (sr : smb_request)
    (start length timeout : Z) (locktype : lock_type) (w : world)
    (events : list wait_event) :
  sr_state sr = SMB_REQ_STATE_CANCELED ->
  (fst (smb_lock_range_lckrules sr (w_file w) (w_node w)
          (smb_lock_create sr start length locktype timeout))
   = NT_STATUS_LOCK_NOT_GRANTED /\ timeout <> 0 ->
   smb_lock_range sr start length timeout locktype w events
   = MutexNotHeld) /\
  (~ (fst (smb_lock_range_lckrules sr (w_file w) (w_node w)
             (smb_lock_create sr start length locktype timeout))
      = NT_STATUS_LOCK_NOT_GRANTED /\ timeout <> 0) ->
   exists r,
     smb_lock_range sr start length timeout locktype w events
     = Returned r /\
     lr_raw r =
     fst (smb_lock_range_lckrules sr (w_file w) (w_node w)
            (smb_lock_create sr start length locktype timeout)) /\
     lr_rest r = events /\ lr_exit r = w /\
     lr_evals r = 1%nat /\ lr_waits r = 0%nat).
Proof.
  intros Hst. unfold smb_lock_range. cbn [smb_lock_range_loop].
  destruct (lckrules_status sr (w_file w) (w_node w)
              (smb_lock_create sr start length locktype timeout))
    as [E | [E | [c E]]]; rewrite E; cbn [fst].
  - split; [intros [H _]; discriminate|]. intros _.
    eexists. split; [reflexivity|]. cbn. repeat split.
  - split; [intros [H _]; discriminate|]. intros _.
    eexists. split; [reflexivity|]. cbn. repeat split.
  - destruct (Z.eqb_spec timeout 0) as [Ht | Ht].
    + split; [intros [_ H]; contradiction|]. intros _.
      eexists. split; [reflexivity|]. cbn. repeat split.
    + unfold smb_lock_wait, mutex_exit_sr. rewrite Hst.
      split; [reflexivity|]. intros H. exfalso. apply H. auto.
Qed.

Lemma lock_cancelled_request_witness :
  smb_lock_range
    (mk_request 200 8 12 22 SMB_REQ_STATE_CANCELED None)
    50 100 5000 SMB_LOCK_TYPE_READWRITE
    (world_of [held owner1 SMB_LOCK_TYPE_READWRITE 0 100] open_file)
    [mk_event false false (world_of [] open_file)]
  = MutexNotHeld.
Proof.
  apply (proj1 (lock_cancelled_request
                  (mk_request 200 8 12 22 SMB_REQ_STATE_CANCELED None)
                  50 100 5000 SMB_LOCK_TYPE_READWRITE
                  (world_of [held owner1 SMB_LOCK_TYPE_READWRITE 0 100]
                     open_file)
                  [mk_event false false (world_of [] open_file)]
                  eq_refl)).
  split; [vm_compute; reflexivity | discriminate].
Defined.

(** When the deadline of a waiting request passes, the request returns
    cancelled (not a conflict status), even if the conflicting lock is
    gone by then: the rules are not evaluated again.  The list of locks
    is the one found at the wake-up and the marker of the file is set. *)
Theorem lock_deadline_expiry (sr : smb_request)
    (start length timeout : Z) (locktype : lock_type) (w : world)
    (ev : wait_event) (rest : list wait_event) :
  sr_state sr = SMB_REQ_STATE_ACTIVE ->
  timeout <> 0 -> timeout <> 0xffffffff ->
  fst (smb_lock_range_lckrules sr (w_file w) (w_node w)
         (smb_lock_create sr start length locktype timeout))
  = NT_STATUS_LOCK_NOT_GRANTED ->
  ev_timedout ev = true ->
  exists r,
    smb_lock_range sr start length timeout locktype w (ev :: rest)
    = Returned r /\
    lr_status r = NT_STATUS_CANCELLED /\
    lr_evals r = 1%nat /\ lr_waits r = 1%nat /\ lr_rest r = rest /\
    w_node (lr_world r) = w_node (ev_world ev) /\
    f_llf_pos (w_file (lr_world r)) = start.
Proof.
  intros Hst Ht Hfin Hrules Hto.
  unfold smb_lock_range. cbn [smb_lock_range_loop List.length].
  destruct (lckrules_status sr (w_file w) (w_node w)
              (smb_lock_create sr start length locktype timeout))
    as [E | [E | [c E]]]; rewrite E in *; cbn [fst] in Hrules;
    try discriminate.
  destruct (Z.eqb_spec timeout 0) as [|_]; [contradiction|].
  unfold smb_lock_wait, mutex_exit_sr. rewrite Hst, Hto.
  assert (Hind : SMB_LOCK_INDEFINITE_WAIT
                   (set_blocked_by
                      (smb_lock_create sr start length locktype timeout)
                      (Some c)) = false).
  { unfold SMB_LOCK_INDEFINITE_WAIT. cbn.
    destruct (Z.eqb_spec timeout 0xffffffff); [contradiction|].
    reflexivity. }
  rewrite Hind.
  destruct (ev_canceled ev); cbn [we_status ntstatus_eqb negb];
    (eexists; split; [reflexivity|]; cbn; repeat split).
Qed.

Lemma lock_deadline_expiry_witness :
  exists r,
    smb_lock_range owner2 50 100 5000 SMB_LOCK_TYPE_READWRITE
      (world_of [held owner1 SMB_LOCK_TYPE_READWRITE 0 100] open_file)
      [mk_event true false (world_of [] open_file)]
    = Returned r /\
    lr_status r = NT_STATUS_CANCELLED /\
    w_node (lr_world r) = mk_node [].
Proof.
  destruct (lock_deadline_expiry owner2 50 100 5000
              SMB_LOCK_TYPE_READWRITE
              (world_of [held owner1 SMB_LOCK_TYPE_READWRITE 0 100]
                 open_file)
              (mk_event true false (world_of [] open_file)) [])
    as (r & Hr & Hs & _ & _ & _ & Hn & _).
  - reflexivity.
  - discriminate.
  - discriminate.
  - vm_compute. reflexivity.
  - reflexivity.
  - exists r. repeat split; assumption.
Defined.

(** A request with the indefinite timeout 0xffffffff is never ended by
    a deadline: unless it is cancelled, it returns only with success or
    with range-not-locked. *)
Theorem lock_indefinite_no_deadline (sr : smb_request) (start length : Z)
    (locktype : lock_type) (w : world) (events : list wait_event)
    (r : lock_result) :
  sr_state sr = SMB_REQ_STATE_ACTIVE ->
  Forall (fun ev => ev_canceled ev = false) events ->
  smb_lock_range sr start length 0xffffffff locktype w events
  = Returned r ->
  lr_status r = NT_STATUS_SUCCESS \/
  lr_status r = NT_STATUS_RANGE_NOT_LOCKED.
Proof.
  intros Hst Hev Hr.
  apply smb_lock_range_returned in Hr as (le & Hloop & ->).
  assert (Hres : le_result le = NT_STATUS_SUCCESS \/
                 le_result le = NT_STATUS_RANGE_NOT_LOCKED).
  { assert (Hind : SMB_LOCK_INDEFINITE_WAIT
                     (smb_lock_create sr start length locktype 0xffffffff)
                   = true) by reflexivity.
    refine (smb_lock_range_loop_ind 0xffffffff
              (fun sr lock w events evals waits le =>
                 SMB_LOCK_INDEFINITE_WAIT lock = true ->
                 sr_state sr = SMB_REQ_STATE_ACTIVE ->
                 Forall (fun ev => ev_canceled ev = false) events ->
                 le_result le = NT_STATUS_SUCCESS \/
                 le_result le = NT_STATUS_RANGE_NOT_LOCKED)
              _ _ _ _ _ _ _ _ _ _ _ Hloop Hind Hst Hev).
    - clear. intros ? ? ? ? ? ? result clock _ [H | [H | [_ H]]] _ _ _;
        cbn; auto; discriminate.
    - intros sr0 lock w0 events0 evals waits c we _ _ Ew Hc Hind' Hact Hall.
      exfalso. revert Ew. unfold smb_lock_wait, mutex_exit_sr. rewrite Hact.
      destruct events0 as [|ev rest]; [discriminate|].
      inversion Hall as [|? ? Hnc _]; subst. rewrite Hnc.
      replace (SMB_LOCK_INDEFINITE_WAIT (set_blocked_by lock (Some c)))
        with true by (rewrite <- Hind'; reflexivity).
      intros [= <-]. discriminate.
    - intros sr0 lock w0 events0 evals waits c we le0 _ _ Ew Hs IH
             Hind' Hact Hall.
      pose proof (smb_lock_wait_spec _ _ _ _ _ _ Ew)
        as (_ & _ & _ & Hlen).
      destruct (Hlen Hs) as [_ Hact'].
      revert Ew. unfold smb_lock_wait, mutex_exit_sr. rewrite Hact.
      destruct events0 as [|ev rest]; [discriminate|].
      inversion Hall as [|? ? Hnc Hrest]; subst. rewrite Hnc.
      intros [= <-]. cbn [we_lock we_rest we_sr] in *.
      apply IH; auto. }
  destruct (smb_lock_range_finish_spec 0xffffffff le)
    as (_ & _ & _ & _ & _ & [(_ & Est & _) | (_ & _ & Est & _)]);
    [auto|].
  rewrite Est.
  destruct Hres as [-> | ->]; [auto|].
  right. apply smb_lock_range_status_other. discriminate.
Qed.

Lemma lock_indefinite_no_deadline_witness :
  exists r,
    smb_lock_range owner2 50 100 0xffffffff SMB_LOCK_TYPE_READWRITE
      (world_of [held owner1 SMB_LOCK_TYPE_READWRITE 0 100] open_file)
      [mk_event true false (world_of [] open_file)]
    = Returned r /\
    (lr_status r = NT_STATUS_SUCCESS \/
     lr_status r = NT_STATUS_RANGE_NOT_LOCKED).
Proof.
  eexists. split; [vm_compute; reflexivity|].
  refine (lock_indefinite_no_deadline owner2 50 100
            SMB_LOCK_TYPE_READWRITE
            (world_of [held owner1 SMB_LOCK_TYPE_READWRITE 0 100] open_file)
            [mk_event true false (world_of [] open_file)] _ _ _ _).
  - reflexivity.
  - constructor; [reflexivity | constructor].
  - vm_compute. reflexivity.
Defined.

(** Whatever way a lock request returns, the request is still the
    caller's (same open file, session, process and user); its wait slot
    is empty if it was empty at the call; and it is in the waiting state
    only if it already was at the call. *)
Theorem lock_request_restored (sr : smb_request)
    (start length timeout : Z) (locktype : lock_type) (w : world)
    (events : list wait_event) (r : lock_result) :
  smb_lock_range sr start length timeout locktype w events = Returned r ->
  same_requester sr (lr_sr r) /\
  (sr_awaiting sr = None -> sr_awaiting (lr_sr r) = None) /\
  (sr_state sr <> SMB_REQ_STATE_WAITING_LOCK ->
   sr_state (lr_sr r) <> SMB_REQ_STATE_WAITING_LOCK).
Proof.
  intros Hr.
  apply smb_lock_range_returned in Hr as (le & Hloop & ->).
  rewrite lr_sr_finish.
  exact (smb_lock_range_loop_request _ _ _ _ _ _ _ _ _ Hloop).
Qed.

Lemma lock_request_restored_witness :
  exists r,
    smb_lock_range owner2 50 100 5000 SMB_LOCK_TYPE_READWRITE
      (world_of [held owner1 SMB_LOCK_TYPE_READWRITE 0 100] open_file)
      [mk_event false false (world_of [] open_file)]
    = Returned r /\
    same_requester owner2 (lr_sr r) /\
    sr_awaiting (lr_sr r) = None.
Proof.
  eexists. split; [vm_compute; reflexivity|].
  refine ((fun H => conj (proj1 H) (proj1 (proj2 H) eq_refl))
            (lock_request_restored owner2 50 100 5000
               SMB_LOCK_TYPE_READWRITE
               (world_of [held owner1 SMB_LOCK_TYPE_READWRITE 0 100]
                  open_file)
               [mk_event false false (world_of [] open_file)] _ _)).
  vm_compute. reflexivity.
Defined.

Lemma ulckrules_scan_skip (sr : smb_request) (start length : Z)
    (before rest : list smb_lock) :
  Forall (fun l => unlock_matchb sr start length l = false) before ->
  forall i,
  ulckrules_scan sr start length (before ++ rest) i =
  ulckrules_scan sr start length rest (i + List.length before)%nat.
Proof.
  induction 1 as [|x before Hx _ IH]; intros i; cbn [app List.length].
  - now rewrite Nat.add_0_r.
  - cbn [ulckrules_scan]. unfold unlock_matchb in Hx. rewrite Hx.
    rewrite IH. f_equal. lia.
Qed.

Lemma unlock_matchb_create (sr : smb_request) (start length timeout : Z)
    (locktype : lock_type) :
  unlock_matchb sr start length
    (smb_lock_create sr start length locktype timeout) = true.
Proof.
  unfold unlock_matchb. cbn. now rewrite !Z.eqb_refl.
Qed.

(** Lock then unlock: after a granted request, the requester's unlock
    of the same start and length succeeds; and when no earlier record
    matched that request, it removes exactly the record just granted and
    leaves the list as it was before the grant. *)
Theorem lock_unlock_round_trip (sr : smb_request)
    (start length timeout : Z) (locktype : lock_type) (w : world)
    (events : list wait_event) (r : lock_result) :
  smb_lock_range sr start length timeout locktype w events = Returned r ->
  lr_status r = NT_STATUS_SUCCESS ->
  ur_status (smb_unlock_range sr (w_node (lr_world r)) start length)
  = NT_STATUS_SUCCESS /\
  (Forall (fun l => unlock_matchb sr start length l = false)
     (n_lock_list (w_node (lr_exit r))) ->
   smb_unlock_range sr (w_node (lr_world r)) start length =
   mk_unlock_result NT_STATUS_SUCCESS (w_node (lr_exit r))
     (Some (smb_lock_create sr start length locktype timeout))).
Proof.
  intros Hr Hs.
  destruct (smb_lock_range_success_world _ _ _ _ _ _ _ _ Hr Hs)
    as [_ Ew].
  rewrite Ew. cbn [w_node].
  pose proof (unlock_matchb_create sr start length timeout locktype) as Hm.
  split.
  - destruct (smb_unlock_range_cases sr
                (mk_node (n_lock_list (w_node (lr_exit r)) ++
                          [smb_lock_create sr start length locktype
                             timeout])) start length)
      as [[Hall _] | (b & c & a & _ & _ & _ & E)].
    + cbn [n_lock_list] in Hall. apply Forall_app in Hall as [_ Hall].
      inversion Hall; subst. congruence.
    + rewrite E. reflexivity.
  - intros Hno.
    unfold smb_unlock_range, smb_lock_range_ulckrules.
    cbn [n_lock_list].
    rewrite (ulckrules_scan_skip _ _ _ _ _ Hno).
    cbn [ulckrules_scan Nat.add]. fold (unlock_matchb sr start length
      (smb_lock_create sr start length locktype timeout)).
    rewrite Hm. cbn [ntstatus_eqb negb].
    rewrite smb_llist_remove_middle, app_nil_r.
    rewrite nth_error_app2, Nat.sub_diag by lia. cbn [nth_error].
    now destruct (w_node (lr_exit r)).
Qed.

Lemma lock_unlock_round_trip_witness :
  exists r,
    smb_lock_range owner2 200 50 0 SMB_LOCK_TYPE_READWRITE
      (world_of [held owner1 SMB_LOCK_TYPE_READWRITE 0 100] open_file) []
    = Returned r /\
    smb_unlock_range owner2 (w_node (lr_world r)) 200 50 =
    mk_unlock_result NT_STATUS_SUCCESS
      (mk_node [held owner1 SMB_LOCK_TYPE_READWRITE 0 100])
      (Some (smb_lock_create owner2 200 50 SMB_LOCK_TYPE_READWRITE 0)).
Proof.
  eexists. split; [vm_compute; reflexivity|].
  refine (proj2 (lock_unlock_round_trip owner2 200 50 0
            SMB_LOCK_TYPE_READWRITE
            (world_of [held owner1 SMB_LOCK_TYPE_READWRITE 0 100] open_file)
            [] _ _ _) _).
  - vm_compute. reflexivity.
  - reflexivity.
  - constructor; [vm_compute; reflexivity | constructor].
Defined.

(** A granted lock protects its range in the access check.  An
    Exclusive lock gives a file lock conflict to every request of another
    session or process, for any access, on any range that overlaps it;
    a Shared lock gives one to every access other than Read on such a
    range, for every requester, its owner included. *)
Theorem granted_lock_blocks_access (sr : smb_request)
    (start length timeout : Z) (locktype : lock_type) (w : world)
    (events : list wait_event) (r : lock_result) (sr' : smb_request)
    (s l desired_access : Z) :
  smb_lock_range sr start length timeout locktype w events = Returned r ->
  lr_status r = NT_STATUS_SUCCESS ->
  smb_lock_range_overlap
    (smb_lock_create sr start length locktype timeout) s l = true ->
  (locktype = SMB_LOCK_TYPE_READONLY /\ desired_access <> FILE_READ_DATA) \/
  (locktype = SMB_LOCK_TYPE_READWRITE /\
   (s_kid sr' <> s_kid sr \/ smb_pid sr' <> smb_pid sr)) ->
  smb_lock_range_access sr' (w_node (lr_world r)) s l desired_access
  = NT_STATUS_FILE_LOCK_CONFLICT.
Proof.
  intros Hr Hs Hov Hcase.
  destruct (smb_lock_range_success_world _ _ _ _ _ _ _ _ Hr Hs)
    as [_ Ew].
  rewrite Ew. cbn [w_node].
  apply access_failure. rewrite access_success_iff. cbn [n_lock_list].
  intros Hall. apply Forall_app in Hall as [_ Hall].
  inversion Hall as [|? ? Hskip _]; subst.
  unfold access_skips, same_session_pid in Hskip.
  cbn [smb_lock_create l_type l_session_kid l_pid] in Hskip.
  destruct Hskip as [H | [[H1 H2] | (H1 & H2 & H3)]].
  - congruence.
  - destruct Hcase as [[_ Hc] | [Hc _]]; congruence.
  - destruct Hcase as [[Hc _] | [_ [Hc | Hc]]]; congruence.
Qed.

Lemma granted_lock_blocks_access_witness :
  exists r,
    smb_lock_range owner1 0 100 0 SMB_LOCK_TYPE_READONLY
      (world_of [] open_file) [] = Returned r /\
    smb_lock_range_access owner1 (w_node (lr_world r)) 50 10
      FILE_WRITE_DATA = NT_STATUS_FILE_LOCK_CONFLICT.
Proof.
  eexists. split; [vm_compute; reflexivity|].
  refine (granted_lock_blocks_access owner1 0 100 0 SMB_LOCK_TYPE_READONLY
            (world_of [] open_file) [] _ owner1 50 10 FILE_WRITE_DATA
            _ _ _ _).
  - vm_compute. reflexivity.
  - reflexivity.
  - vm_compute. reflexivity.
  - left. split; [reflexivity | discriminate].
Defined.



Lemma destroy_lock_by_ofile_idempotent_witness :
  smb_unlock_range owner1
    (dr_node
       (smb_node_destroy_lock_by_ofile
          (mk_node [held owner1 SMB_LOCK_TYPE_READWRITE 0 100;
                    held owner2 SMB_LOCK_TYPE_READONLY 200 10]) 100))
    0 100 =
  mk_unlock_result NT_STATUS_RANGE_NOT_LOCKED
    (dr_node
       (smb_node_destroy_lock_by_ofile
          (mk_node [held owner1 SMB_LOCK_TYPE_READWRITE 0 100;
                    held owner2 SMB_LOCK_TYPE_READONLY 200 10]) 100))
    None.
Proof.
  apply (proj2 (destroy_lock_by_ofile_idempotent
                  (mk_node [held owner1 SMB_LOCK_TYPE_READWRITE 0 100;
                            held owner2 SMB_LOCK_TYPE_READONLY 200 10])
                  100) owner1 0 100).
  reflexivity.
Defined.

Lemma removal_preserves_grant_witness :
  fst (smb_lock_range_lckrules owner2 open_file
         (ur_node
            (smb_unlock_range owner1
               (mk_node [held owner1 SMB_LOCK_TYPE_READONLY 0 100]) 0 100))
         (smb_lock_create owner2 50 10 SMB_LOCK_TYPE_READONLY 0))
  = NT_STATUS_SUCCESS.
Proof.
  refine (proj1 (proj1 (removal_preserves_grant owner2 open_file
            (mk_node [held owner1 SMB_LOCK_TYPE_READONLY 0 100])
            (smb_lock_create owner2 50 10 SMB_LOCK_TYPE_READONLY 0)
            owner1 0 100 100) _)).
  vm_compute. reflexivity.
Defined.

(** Wake-up and re-evaluation: a waiting request that is woken before
    its deadline, and not cancelled, evaluates the rules again on the
    list it finds; when nothing conflicts any more it is granted and its
    record is appended to that list. *)
Theorem lock_wakeup_grant (sr : smb_request) (start length timeout : Z)
    (locktype : lock_type) (w : world) (ev : wait_event)
    (rest : list wait_event) :
  sr_state sr = SMB_REQ_STATE_ACTIVE ->
  timeout <> 0 ->
  fst (smb_lock_range_lckrules sr (w_file w) (w_node w)
         (smb_lock_create sr start length locktype timeout))
  = NT_STATUS_LOCK_NOT_GRANTED ->
  ev_timedout ev = false -> ev_canceled ev = false ->
  fst (smb_lock_range_lckrules sr (w_file (ev_world ev))
         (w_node (ev_world ev))
         (smb_lock_create sr start length locktype timeout))
  = NT_STATUS_SUCCESS ->
  exists r,
    smb_lock_range sr start length timeout locktype w (ev :: rest)
    = Returned r /\
    lr_status r = NT_STATUS_SUCCESS /\
    lr_evals r = 2%nat /\ lr_waits r = 1%nat /\ lr_rest r = rest /\
    n_lock_list (w_node (lr_world r)) =
    n_lock_list (w_node (ev_world ev)) ++
    [smb_lock_create sr start length locktype timeout].
Proof.
  intros Hst Ht Hrules Hto Hnc Hgrant.
  unfold smb_lock_range. cbn [smb_lock_range_loop List.length].
  destruct (lckrules_status sr (w_file w) (w_node w)
              (smb_lock_create sr start length locktype timeout))
    as [E | [E | [c E]]]; rewrite E in *; cbn [fst] in Hrules;
    try discriminate.
  destruct (Z.eqb_spec timeout 0) as [|_]; [contradiction|].
  unfold smb_lock_wait, mutex_exit_sr. rewrite Hst, Hto, Hnc.
  replace (if SMB_LOCK_INDEFINITE_WAIT
                (set_blocked_by
                   (smb_lock_create sr start length locktype timeout)
                   (Some c))
           then NT_STATUS_SUCCESS else NT_STATUS_SUCCESS)
    with NT_STATUS_SUCCESS by (now destruct (SMB_LOCK_INDEFINITE_WAIT _)).
  cbn [we_status we_sr we_lock we_world we_rest ntstatus_eqb negb].
  assert (Hg : fst (smb_lock_range_lckrules
                      (set_sr_state sr SMB_REQ_STATE_ACTIVE None)
                      (w_file (ev_world ev)) (w_node (ev_world ev))
                      (set_blocked_by
                         (smb_lock_create sr start length locktype timeout)
                         (Some c))) = NT_STATUS_SUCCESS).
  { apply lckrules_success_iff in Hgrant as [Hopen Hall].
    apply lckrules_success_iff. split; [assumption|].
    eapply Forall_impl; [|exact Hall].
    intros m Hm.
    refine (proj2 (grant_skips_same_requester sr _ _ _ m _ _) Hm).
    - repeat split.
    - reflexivity. }
  destruct (lckrules_status (set_sr_state sr SMB_REQ_STATE_ACTIVE None)
              (w_file (ev_world ev)) (w_node (ev_world ev))
              (set_blocked_by
                 (smb_lock_create sr start length locktype timeout)
                 (Some c)))
    as [E' | [E' | [c' E']]]; rewrite E' in *; cbn [fst] in Hg;
    try discriminate.
  eexists. split; [reflexivity|]. cbn. repeat split.
Qed.

Lemma lock_wakeup_grant_witness :
  exists r,
    smb_lock_range owner2 50 100 5000 SMB_LOCK_TYPE_READWRITE
      (world_of [held owner1 SMB_LOCK_TYPE_READWRITE 0 100] open_file)
      [mk_event false false (world_of [] open_file)]
    = Returned r /\
    lr_status r = NT_STATUS_SUCCESS.
Proof.
  destruct (lock_wakeup_grant owner2 50 100 5000 SMB_LOCK_TYPE_READWRITE
              (world_of [held owner1 SMB_LOCK_TYPE_READWRITE 0 100]
                 open_file)
              (mk_event false false (world_of [] open_file)) [])
    as (r & Hr & Hs & _).
  - reflexivity.
  - discriminate.
  - vm_compute. reflexivity.
  - reflexivity.
  - reflexivity.
  - vm_compute. reflexivity.
  - exists r. split; assumption.
Defined.
